(** * Caffe runtime core ([include/caffe/common.hpp]): a shallow embedding

    The development models the concurrency helpers and the static runtime
    state of [caffe/common.hpp]:
    - [ThreadSafeMap<M>] over an ordered [std::map] (a strictly key-sorted
      association list, compared with the map's [operator<]);
    - [Flag], the mutex/condition-variable event, as a pair of booleans
      with the wake-up predicates of its [cv_.wait] calls;
    - [atomic_maximum] / [atomic_minimum], the CAS loops, as an interleaving
      step relation over threads sharing one atomic cell;
    - the [Caffe] statics [epoch_count_], [gpus_] and [mode_]. *)

From Stdlib Require Import List Bool Arith Lia ZArith NArith Sorting.Sorted.
From Stdlib Require Ascii.
Import ListNotations.

(* ================================================================== *)
(** ** [ThreadSafeMap<std::map<K, V>>] *)

Module TSMap.

Section StdMap.

Context {K V : Type}.

(** [std::less<K>]: the key comparison of the underlying [std::map]. *)
Variable key_lt : K -> K -> bool.
(** [operator>] on the mapped type, used by [insert_max]. *)
Variable value_gt : V -> V -> bool.

(** The map's contents in iteration order, [begin()] first. *)
Definition map_t := list (K * V).

Definition keys (m : map_t) : list K := map fst m.

(** [std::map::find]: keys are equivalent when neither is less than the other. *)
Fixpoint map_find (k : K) (m : map_t) : option V :=
  match m with
  | [] => None
  | (k', v') :: t =>
      if key_lt k k' then None
      else if key_lt k' k then map_find k t
      else Some v'
  end.

(** [std::map::emplace] / [insert]: no effect when the key is present. *)
Fixpoint map_emplace (k : K) (v : V) (m : map_t) : map_t :=
  match m with
  | [] => [(k, v)]
  | (k', v') :: t =>
      if key_lt k k' then (k, v) :: m
      else if key_lt k' k then (k', v') :: map_emplace k v t
      else m
  end.

(** [it->second = value] on the element found for [k]. *)
Fixpoint map_assign (k : K) (v : V) (m : map_t) : map_t :=
  match m with
  | [] => []
  | (k', v') :: t =>
      if key_lt k k' then m
      else if key_lt k' k then (k', v') :: map_assign k v t
      else (k', v) :: t
  end.

(** [map_[k] = v]: [operator[]] default-inserts, the caller assigns. *)
Fixpoint map_set (k : K) (v : V) (m : map_t) : map_t :=
  match m with
  | [] => [(k, v)]
  | (k', v') :: t =>
      if key_lt k k' then (k, v) :: m
      else if key_lt k' k then (k', v') :: map_set k v t
      else (k', v) :: t
  end.

(** [std::map::erase(key)]. *)
Fixpoint map_erase (k : K) (m : map_t) : map_t :=
  match m with
  | [] => []
  | (k', v') :: t =>
      if key_lt k k' then m
      else if key_lt k' k then (k', v') :: map_erase k t
      else t
  end.

(** [ThreadSafeMap::insert_max]. *)
Definition insert_max (k : K) (v : V) (m : map_t) : map_t :=
  match map_find k m with
  | None => map_emplace k v m
  | Some old => if value_gt v old then map_assign k v m else m
  end.

(** [ThreadSafeMap::remove_top(key, value)]: the result, the two output
    arguments after the call, and the map after the call. *)
Definition remove_top (key : K) (value : V) (m : map_t)
  : bool * K * V * map_t :=
  match m with
  | [] => (false, key, value, m)
  | (k, v) :: t => (true, k, v, t)
  end.

(** The mutating public operations of [ThreadSafeMap]. *)
Inductive map_op : Type :=
| MInsert (k : K) (v : V)      (* insert / emplace *)
| MInsertMax (k : K) (v : V)   (* insert_max *)
| MIndexSet (k : K) (v : V)    (* operator[] followed by an assignment *)
| MErase (k : K)               (* erase(key), erase(find(key)) *)
| MClear                       (* clear *)
| MRemoveTop.                  (* remove_top, outputs discarded *)

Definition apply_op (m : map_t) (o : map_op) : map_t :=
  match o with
  | MInsert k v => map_emplace k v m
  | MInsertMax k v => insert_max k v m
  | MIndexSet k v => map_set k v m
  | MErase k => map_erase k m
  | MClear => []
  | MRemoveTop => match m with [] => [] | _ :: t => t end
  end.

(** The map built by a sequence of operations from the empty map that the
    constructor allocates. *)
Definition run_ops (ops : list map_op) : map_t := fold_left apply_op ops [].

(** The caller's loop [while (m.remove_top(key, value)) out.push_back(...)]. *)
Fixpoint drain (fuel : nat) (key : K) (value : V) (m : map_t)
  : list (K * V) * map_t :=
  match fuel with
  | O => ([], m)
  | S f =>
      match remove_top key value m with
      | (true, k, v, m') =>
          let '(out, m'') := drain f k v m' in ((k, v) :: out, m'')
      | (false, _, _, m') => ([], m')
      end
  end.

(** [n] successive calls of [remove_top], each one passing the output
    arguments left by the previous call; the list of their results. *)
Fixpoint remove_top_results (n : nat) (key : K) (value : V) (m : map_t)
  : list bool :=
  match n with
  | O => []
  | S n' =>
      let '(b, k, v, m') := remove_top key value m in
      b :: remove_top_results n' k v m'
  end.

End StdMap.

End TSMap.

(* ================================================================== *)
(** ** [Flag]: the mutex/condition-variable event *)

Module Flag.

(** The two members guarded by [m_]. *)
Record flag_state : Type := mk_flag { flag_ : bool; disarmed_ : bool }.

(** [explicit Flag(bool state = false) : flag_(state), disarmed_(false)]. *)
Definition Flag_new (state : bool) : flag_state := mk_flag state false.

Definition set (s : flag_state) : flag_state := mk_flag true (disarmed_ s).
Definition reset (s : flag_state) : flag_state := mk_flag false (disarmed_ s).
Definition disarm (s : flag_state) : flag_state := mk_flag (flag_ s) true.
Definition is_set (s : flag_state) : bool := flag_ s.

(** Wake-up predicate of [wait()]: [[this] { return flag_; }]. *)
Definition wait_pred (s : flag_state) : bool := flag_ s.

(** Wake-up predicate of [wait_reset()]: [[this] { return flag_ || disarmed_; }]. *)
Definition wait_reset_pred (s : flag_state) : bool := flag_ s || disarmed_ s.

(** [wait()]: [None] while the caller stays blocked in [cv_.wait];
    otherwise the state after the call (unchanged). *)
Definition wait (s : flag_state) : option flag_state :=
  if wait_pred s then Some s else None.

(** [wait_reset()]: [None] while blocked; on wake-up
    [if (!disarmed_) flag_ = false;]. *)
Definition wait_reset (s : flag_state) : option flag_state :=
  if wait_reset_pred s then
    Some (if negb (disarmed_ s) then mk_flag false (disarmed_ s) else s)
  else None.

(** The operations other threads may run on the flag. A [wait_reset] that
    would block leaves the state alone (its caller keeps waiting). *)
Inductive flag_op : Type := FSet | FReset | FDisarm | FWaitReset.

Definition apply_flag_op (s : flag_state) (o : flag_op) : flag_state :=
  match o with
  | FSet => set s
  | FReset => reset s
  | FDisarm => disarm s
  | FWaitReset => match wait_reset s with Some s' => s' | None => s end
  end.

Definition run_flag_ops (s : flag_state) (ops : list flag_op) : flag_state :=
  fold_left apply_flag_op ops s.

End Flag.

(* ================================================================== *)
(** ** [atomic_maximum] / [atomic_minimum]: CAS loops on a shared atomic *)

Module Atomic.

Section CasLoop.

Context {D : Type}.

(** [operator<] on [Dtype]. *)
Variable lt : D -> D -> bool.

(** Loop conditions, as functions of [prev_val] and [new_val]. *)
Definition atomic_maximum_cond (prev new : D) : bool := lt prev new. (* prev_val < new_val *)
Definition atomic_minimum_cond (prev new : D) : bool := lt new prev. (* prev_val > new_val *)

(** Program point of one thread running one call with [new_val = c]. *)
Inductive thread : Type :=
| TStart (c : D)          (* before [prev_val = std::atomic_load(&val)] *)
| TLoop (prev c : D)      (* at the [while] test, holding [prev_val] *)
| TDone (c : D).          (* returned *)

Definition proposal (t : thread) : D :=
  match t with TStart c | TLoop _ c | TDone c => c end.

Definition is_done (t : thread) : Prop :=
  match t with TDone _ => True | _ => False end.

Section Step.

(** The loop condition of the function being run. *)
Variable cond : D -> D -> bool.

(** One atomic step of one thread, with the shared value before and after.
    [compare_exchange_weak(prev_val, new_val)] either stores [new_val] when
    the shared value equals [prev_val], or fails (really or spuriously) and
    loads the current shared value into [prev_val]. The [while] test reads
    only thread-local values, so it is merged with the exchange. *)
Inductive tstep : D -> thread -> D -> thread -> Prop :=
| ts_load sh c : tstep sh (TStart c) sh (TLoop sh c)
| ts_exit sh prev c : cond prev c = false -> tstep sh (TLoop prev c) sh (TDone c)
| ts_cas_ok prev c : cond prev c = true -> tstep prev (TLoop prev c) c (TDone c)
| ts_cas_fail sh prev c : cond prev c = true -> tstep sh (TLoop prev c) sh (TLoop sh c).

(** Any thread of the pool may take the next step. *)
Inductive step : D -> list thread -> D -> list thread -> Prop :=
| step_at pre post sh t sh' t' :
    tstep sh t sh' t' -> step sh (pre ++ t :: post) sh' (pre ++ t' :: post).

Inductive steps : D -> list thread -> D -> list thread -> Prop :=
| steps_refl sh ts : steps sh ts sh ts
| steps_cons sh ts sh1 ts1 sh2 ts2 :
    step sh ts sh1 ts1 -> steps sh1 ts1 sh2 ts2 -> steps sh ts sh2 ts2.

End Step.

End CasLoop.

End Atomic.

(* ================================================================== *)
(** ** The [Caffe] statics: [epoch_count_], [gpus_], [mode_] *)

Module CaffeState.

(** [size_t] values, [0 <= x <= SIZE_MAX]. *)
Definition SIZE_MAX : N := 2 ^ 64 - 1.

(** [(size_t)-1L]. *)
Definition size_t_minus_one : N := SIZE_MAX.

(** Modelled from the spec: the initial value of [Caffe::epoch_count_]
    (defined in [common.cpp], not in this header), the "unset" sentinel. *)
Definition epoch_count_init : N := size_t_minus_one.

(** [report_epoch_count(rec)]: [atomic_minimum(epoch_count_, rec)]; one
    reporting thread of the CAS model over [size_t]. *)
Definition report_epoch_count (rec : N) : Atomic.thread := Atomic.TStart rec.

Definition epoch_cond : N -> N -> bool := Atomic.atomic_minimum_cond N.ltb.

(** [epoch_count()]. *)
Definition epoch_count (epoch_count_ : N) : N :=
  let count := epoch_count_ in
  if N.eqb count size_t_minus_one then 0%N else count.

Inductive Brew : Type := CPU | GPU.

Definition Brew_eqb (a b : Brew) : bool :=
  match a, b with CPU, CPU | GPU, GPU => true | _, _ => false end.

(** The static members touched by [set_gpus] and [set_mode]; [init_calls]
    counts the calls of [Caffe::init()]. *)
Record statics : Type := mk_statics {
  root_device_ : Z;
  gpus_ : list Z;
  mode_ : Brew;
  init_calls : nat
}.

(** [set_gpus(gpus)]: [gpus_ = gpus; if (gpus_.empty()) gpus_.push_back(root_device_);]. *)
Definition set_gpus (st : statics) (gpus : list Z) : statics :=
  let g := gpus in
  let g := match g with [] => g ++ [root_device_ st] | _ => g end in
  mk_statics (root_device_ st) g (mode_ st) (init_calls st).

(** Modelled from the spec: [Caffe::init()] (defined in [common.cpp], not in
    this header) reinitializes the pooled resources for the current mode; it
    is recorded as one reinitialization and leaves the mode as it is. *)
Definition init (st : statics) : statics :=
  mk_statics (root_device_ st) (gpus_ st) (mode_ st) (S (init_calls st)).

(** [set_mode(mode)]: early return when unchanged, else [mode_ = mode]
    under [caffe_mutex_] and then [Get().init()]. *)
Definition set_mode (st : statics) (mode : Brew) : statics :=
  if Brew_eqb (mode_ st) mode then st
  else init (mk_statics (root_device_ st) (gpus_ st) mode (init_calls st)).

End CaffeState.

(* ================================================================== *)
(** ** Bit helpers: [align_down], [align_up], [is_even], [even] *)

Module Align.

Open Scope Z_scope.

(** [T] is an unsigned integer type of [w] bits ([size_t]: [w = 64]); its
    values are [0 <= x < 2 ^ w]. The conversion of an [int] to [T]. *)
Definition to_T (w x : Z) : Z := x mod 2 ^ w.

(** [(1 << power) - 1], computed in [int]. *)
Definition mask (power : Z) : Z := Z.shiftl 1 power - 1.

(** [val & ~((1 << power) - 1)]: [~mask] is a negative [int] converted to [T]. *)
Definition align_down (w power val : Z) : Z :=
  Z.land val (to_T w (Z.lnot (mask power))).

(** [!(val & mask) ? val : (val | mask) + 1], the sum wrapping in [T]. *)
Definition align_up (w power val : Z) : Z :=
  if Z.eqb (Z.land val (to_T w (mask power))) 0 then val
  else to_T w (Z.lor val (to_T w (mask power)) + 1).

(** [(val & 1) == 0]. *)
Definition is_even (val : Z) : bool := Z.eqb (Z.land val 1) 0.

(** [val & 1 ? val + 1 : val], the sum wrapping in [T]. *)
Definition even (w val : Z) : Z :=
  if negb (Z.eqb (Z.land val 1) 0) then to_T w (val + 1) else val.

End Align.

(* ================================================================== *)
(** ** [rss()]: the [VmRSS] entry of [/proc/self/status] *)

Module Rss.

Import Ascii.
Open Scope char_scope.

(** A buffer filled by [fgets], without its terminating NUL. *)
Definition line_t := list ascii.

Definition NUL : ascii := ascii_of_nat 0.

Definition is_digit (c : ascii) : bool :=
  let n := nat_of_ascii c in Nat.leb 48 n && Nat.leb n 57.

Definition digit_value (c : ascii) : Z := Z.of_nat (nat_of_ascii c) - 48.

(** [isspace] in the C locale. *)
Definition is_space (c : ascii) : bool :=
  let n := nat_of_ascii c in Nat.eqb n 32 || (Nat.leb 9 n && Nat.leb n 13).

(** [strncmp(line, "VmRSS:", 6) == 0]. *)
Definition VmRSS_prefix : line_t := ["V"; "m"; "R"; "S"; "S"; ":"].

Definition starts_with_VmRSS (line : line_t) : bool :=
  if list_eq_dec ascii_dec (firstn 6 line) VmRSS_prefix then true else false.

(** The loop [while ( *p < '0' || *p > '9') p++;] from index [j]: the index of the
    first digit; [None] when the scan would run past the buffer. *)
Fixpoint first_digit (j : nat) (l : line_t) : option nat :=
  match l with
  | [] => None
  | c :: t => if is_digit c then Some j else first_digit (S j) t
  end.

(** [line[n] = c]. *)
Fixpoint replace_nth (l : line_t) (n : nat) (c : ascii) : line_t :=
  match l, n with
  | [], _ => []
  | _ :: t, O => c :: t
  | x :: t, S n' => x :: replace_nth t n' c
  end.

Fixpoint skip_space (l : line_t) : line_t :=
  match l with
  | c :: t => if is_space c then skip_space t else l
  | [] => []
  end.

Fixpoint read_digits (acc : Z) (l : line_t) : Z :=
  match l with
  | c :: t => if is_digit c then read_digits (10 * acc + digit_value c) t else acc
  | [] => acc
  end.

(** [atol] on a string that ends at the first NUL (the NUL is no digit). *)
Definition atol (l : line_t) : Z :=
  match skip_space l with
  | c :: t =>
      if ascii_dec c "-" then - read_digits 0 t
      else if ascii_dec c "+" then read_digits 0 t
      else read_digits 0 (c :: t)
  | [] => 0
  end.

(** The body of the [if] for the matching line:
    [i = strlen(line); p = first digit; line[i-3] = '\0'; i = (size_t)atol(p);].
    [None] when the digit scan runs past the buffer. *)
Definition rss_line (line : line_t) : option Z :=
  let i := length line in
  match first_digit 0 line with
  | None => None
  | Some j =>
      let line' := replace_nth line (i - 3) NUL in
      Some ((atol (skipn j line') mod 2 ^ 64)%Z)
  end.

(** [rss()] over the successive [fgets] buffers of the file: the first line
    starting with [VmRSS:] decides, and the result is [0] without one. *)
Fixpoint rss (chunks : list line_t) : option Z :=
  match chunks with
  | [] => Some 0%Z
  | line :: t => if starts_with_VmRSS line then rss_line line else rss t
  end.

(** The number spelt by a list of decimal digits. *)
Definition decimal (ds : line_t) : Z :=
  fold_left (fun acc c => (10 * acc + digit_value c)%Z) ds 0%Z.

End Rss.

(* ================================================================== *)
(** ** [Caffe::device_in_use_per_host_count] *)

Module CaffeDevices.
Import CaffeState.

(** The conversion of a [size_t] to a 32-bit [int]: the value modulo
    [2^32], read in two's complement. *)
Definition int_of_size_t (n : Z) : Z :=
  let m := (n mod 2 ^ 32)%Z in if (2 ^ 31 <=? m)%Z then (m - 2 ^ 32)%Z else m.

(** [(int)gpus_.size()]. *)
Definition device_in_use_per_host_count (st : statics) : Z :=
  int_of_size_t (Z.of_nat (length (gpus_ st))).

End CaffeDevices.

(* ================================================================== *)
(** ** Properties of [ThreadSafeMap<std::map<K, V>>] *)

Module TSMapFacts.
Import TSMap.

Section Facts.

Context {K V : Type}.
Variable key_lt : K -> K -> bool.
Variable value_gt : V -> V -> bool.

(** [std::less<K>] is a strict total order on the keys. *)
Hypothesis key_lt_irrefl : forall a, key_lt a a = false.
Hypothesis key_lt_trans :
  forall a b c, key_lt a b = true -> key_lt b c = true -> key_lt a c = true.
Hypothesis key_lt_total :
  forall a b, key_lt a b = false -> key_lt b a = false -> a = b.

(** [operator>] is a strict total order on the mapped values. *)
Hypothesis value_gt_irrefl : forall a, value_gt a a = false.
Hypothesis value_gt_trans :
  forall a b c, value_gt a b = true -> value_gt b c = true -> value_gt a c = true.
Hypothesis value_gt_total :
  forall a b, value_gt a b = false -> value_gt b a = false -> a = b.

Definition key_below (a b : K) : Prop := key_lt a b = true.

(** The representation invariant of a [std::map]: keys strictly increase. *)
Definition sorted_map (m : @map_t K V) : Prop := StronglySorted key_below (keys m).

Ltac cmp_cases a b :=
  let E1 := fresh "E" in
  let E2 := fresh "E" in
  destruct (key_lt a b) eqn:E1; [|destruct (key_lt b a) eqn:E2].

Lemma key_eq_dec (a b : K) : {a = b} + {a <> b}.
Proof.
  destruct (key_lt a b) eqn:E1.
  - right; intros ->; rewrite key_lt_irrefl in E1; discriminate.
  - destruct (key_lt b a) eqn:E2.
    + right; intros ->; rewrite key_lt_irrefl in E2; discriminate.
    + left; apply key_lt_total; assumption.
Qed.

Lemma forall_below_trans (a b : K) (l : list K) :
  key_lt a b = true -> Forall (key_below b) l -> Forall (key_below a) l.
Proof.
  intros Hab Hl; eapply Forall_impl; [|exact Hl].
  unfold key_below; intros x Hx; eapply key_lt_trans; eauto.
Qed.

Lemma keys_emplace_in (k x : K) (v : V) (m : map_t) :
  In x (keys (map_emplace key_lt k v m)) -> x = k \/ In x (keys m).
Proof.
  induction m as [|[a b] t IH]; simpl; [intuition|].
  cmp_cases k a; simpl; intuition.
Qed.

Lemma keys_set_in (k x : K) (v : V) (m : map_t) :
  In x (keys (map_set key_lt k v m)) -> x = k \/ In x (keys m).
Proof.
  induction m as [|[a b] t IH]; simpl; [intuition|].
  cmp_cases k a; simpl; intuition.
Qed.

Lemma keys_assign (k : K) (v : V) (m : map_t) :
  keys (map_assign key_lt k v m) = keys m.
Proof.
  induction m as [|[a b] t IH]; simpl; [reflexivity|].
  cmp_cases k a; simpl; congruence.
Qed.

Lemma keys_erase_in (k x : K) (m : @map_t K V) :
  In x (keys (map_erase key_lt k m)) -> In x (keys m).
Proof.
  induction m as [|[a b] t IH]; simpl; [intuition|].
  cmp_cases k a; simpl; intuition.
Qed.

Lemma forall_keys_incl (P : K -> Prop) (l l' : list K) :
  (forall x, In x l' -> In x l) -> Forall P l -> Forall P l'.
Proof.
  intros Hi Hl; rewrite Forall_forall in *; auto.
Qed.

Lemma emplace_sorted (k : K) (v : V) (m : map_t) :
  sorted_map m -> sorted_map (map_emplace key_lt k v m).
Proof.
  unfold sorted_map; induction m as [|[a b] t IH]; simpl; intros Hs.
  - repeat constructor.
  - inversion Hs as [|? ? Ht Hf]; subst.
    cmp_cases k a; simpl.
    + constructor; [exact Hs|]. constructor; [exact E|].
      eapply forall_below_trans; eauto.
    + constructor; [auto|].
      eapply forall_keys_incl; [|constructor; [exact E0|exact Hf]].
      intros x Hx; destruct (keys_emplace_in k x v t Hx); simpl; auto.
    + exact Hs.
Qed.

Lemma set_sorted (k : K) (v : V) (m : map_t) :
  sorted_map m -> sorted_map (map_set key_lt k v m).
Proof.
  unfold sorted_map; induction m as [|[a b] t IH]; simpl; intros Hs.
  - repeat constructor.
  - inversion Hs as [|? ? Ht Hf]; subst.
    cmp_cases k a; simpl.
    + constructor; [exact Hs|]. constructor; [exact E|].
      eapply forall_below_trans; eauto.
    + constructor; [auto|].
      eapply forall_keys_incl; [|constructor; [exact E0|exact Hf]].
      intros x Hx; destruct (keys_set_in k x v t Hx); simpl; auto.
    + exact Hs.
Qed.

Lemma assign_sorted (k : K) (v : V) (m : map_t) :
  sorted_map m -> sorted_map (map_assign key_lt k v m).
Proof. unfold sorted_map; rewrite keys_assign; auto. Qed.

Lemma erase_sorted (k : K) (m : @map_t K V) :
  sorted_map m -> sorted_map (map_erase key_lt k m).
Proof.
  unfold sorted_map; induction m as [|[a b] t IH]; simpl; intros Hs; [exact Hs|].
  inversion Hs as [|? ? Ht Hf]; subst.
  cmp_cases k a; simpl; auto.
  constructor; [auto|].
  eapply forall_keys_incl; [|exact Hf]. intros x; apply keys_erase_in.
Qed.

Lemma apply_op_sorted (m : map_t) (o : map_op) :
  sorted_map m -> sorted_map (apply_op key_lt value_gt m o).
Proof.
  intros Hs; destruct o; simpl.
  - apply emplace_sorted; auto.
  - unfold insert_max; destruct (map_find key_lt k m); [|apply emplace_sorted; auto].
    destruct (value_gt v v0); [apply assign_sorted|]; auto.
  - apply set_sorted; auto.
  - apply erase_sorted; auto.
  - constructor.
  - destruct m as [|e t]; [constructor|]. inversion Hs; assumption.
Qed.

Lemma run_ops_sorted (ops : list map_op) : sorted_map (run_ops key_lt value_gt ops).
Proof.
  unfold run_ops.
  assert (G : forall m, sorted_map m -> sorted_map (fold_left (apply_op key_lt value_gt) ops m)).
  { induction ops as [|o os IH]; simpl; intros m Hm; auto. apply IH, apply_op_sorted, Hm. }
  apply G; constructor.
Qed.

Lemma find_in (k : K) (v : V) (m : map_t) :
  map_find key_lt k m = Some v -> In (k, v) m.
Proof.
  induction m as [|[a b] t IH]; simpl; [discriminate|].
  cmp_cases k a; [discriminate| auto |].
  intros H; injection H as <-; left; f_equal; apply key_lt_total; assumption.
Qed.

Lemma find_none_below (k : K) (m : @map_t K V) :
  Forall (key_below k) (keys m) -> map_find key_lt k m = None.
Proof.
  destruct m as [|[a b] t]; simpl; [reflexivity|].
  intros Hf; inversion Hf as [|? ? Ha]; subst. unfold key_below in Ha; now rewrite Ha.
Qed.

Lemma find_of_in (k : K) (v : V) (m : map_t) :
  sorted_map m -> In (k, v) m -> map_find key_lt k m = Some v.
Proof.
  unfold sorted_map; induction m as [|[a b] t IH]; simpl; intros Hs Hin; [contradiction|].
  inversion Hs as [|? ? Ht Hf]; subst.
  destruct Hin as [Heq|Hin].
  - injection Heq as -> ->. now rewrite key_lt_irrefl.
  - assert (Hak : key_lt a k = true).
    { rewrite Forall_forall in Hf; apply Hf. apply (in_map fst) in Hin; exact Hin. }
    destruct (key_lt k a) eqn:Hka.
    + pose proof (key_lt_trans a k a Hak Hka) as Haa; rewrite key_lt_irrefl in Haa; discriminate.
    + rewrite Hak; auto.
Qed.

Lemma drain_all (m : @map_t K V) :
  forall key value, drain (length m) key value m = (m, []).
Proof.
  induction m as [|[a b] t IH]; intros key value; simpl; [reflexivity|].
  now rewrite IH.
Qed.

Lemma find_emplace_same (k : K) (v : V) (m : map_t) :
  map_find key_lt k (map_emplace key_lt k v m) =
  match map_find key_lt k m with None => Some v | Some o => Some o end.
Proof.
  induction m as [|[a b] t IH]; simpl; [now rewrite key_lt_irrefl|].
  cmp_cases k a; simpl; rewrite ?E, ?E0, ?key_lt_irrefl; auto.
Qed.

Lemma find_emplace_other (k k' : K) (v : V) (m : map_t) :
  k' <> k -> map_find key_lt k' (map_emplace key_lt k v m) = map_find key_lt k' m.
Proof.
  intros Hne; induction m as [|[a b] t IH]; simpl.
  - destruct (key_lt k' k) eqn:E1; [reflexivity|].
    destruct (key_lt k k') eqn:E2; [reflexivity|].
    exfalso; apply Hne, key_lt_total; assumption.
  - cmp_cases k a; simpl.
    + cmp_cases k' k.
      * now rewrite (key_lt_trans k' k a E0 E).
      * reflexivity.
      * exfalso; apply Hne, key_lt_total; assumption.
    + destruct (key_lt k' a); [reflexivity|].
      destruct (key_lt a k'); [exact IH|reflexivity].
    + reflexivity.
Qed.

Lemma find_assign_same (k : K) (v : V) (m : map_t) :
  map_find key_lt k (map_assign key_lt k v m) =
  match map_find key_lt k m with None => None | Some _ => Some v end.
Proof.
  induction m as [|[a b] t IH]; simpl; [reflexivity|].
  cmp_cases k a; simpl; rewrite ?E, ?E0; auto.
Qed.

Lemma find_assign_other (k k' : K) (v : V) (m : map_t) :
  k' <> k -> map_find key_lt k' (map_assign key_lt k v m) = map_find key_lt k' m.
Proof.
  intros Hne; induction m as [|[a b] t IH]; simpl; [reflexivity|].
  cmp_cases k a; simpl.
  - reflexivity.
  - destruct (key_lt k' a); [reflexivity|].
    destruct (key_lt a k'); [exact IH|reflexivity].
  - assert (k = a) as <- by (apply key_lt_total; assumption).
    destruct (key_lt k' k) eqn:E1; [reflexivity|].
    destruct (key_lt k k') eqn:E2; [reflexivity|].
    exfalso; apply Hne, key_lt_total; assumption.
Qed.

Lemma insert_max_find_same (k : K) (v : V) (m : map_t) :
  map_find key_lt k (insert_max key_lt value_gt k v m) =
  match map_find key_lt k m with
  | None => Some v
  | Some old => Some (if value_gt v old then v else old)
  end.
Proof.
  unfold insert_max; destruct (map_find key_lt k m) as [old|] eqn:F.
  - destruct (value_gt v old); [now rewrite find_assign_same, F| exact F].
  - now rewrite find_emplace_same, F.
Qed.

Lemma insert_max_find_other (k k' : K) (v : V) (m : map_t) :
  k' <> k ->
  map_find key_lt k' (insert_max key_lt value_gt k v m) = map_find key_lt k' m.
Proof.
  intros Hne; unfold insert_max; destruct (map_find key_lt k m) as [old|].
  - destruct (value_gt v old); [apply find_assign_other; auto|reflexivity].
  - apply find_emplace_other; auto.
Qed.

Definition offer_ops (offers : list (K * V)) : list (@map_op K V) :=
  map (fun kv => MInsertMax (fst kv) (snd kv)) offers.

Lemma run_offer_ops_snoc (offers : list (K * V)) (k : K) (v : V) :
  run_ops key_lt value_gt (offer_ops (offers ++ [(k, v)])) =
  insert_max key_lt value_gt k v (run_ops key_lt value_gt (offer_ops offers)).
Proof. unfold run_ops, offer_ops; rewrite map_app, fold_left_app; reflexivity. Qed.

Lemma in_snoc_other (l : list (K * V)) (k k0 : K) (u v0 : V) :
  k <> k0 -> In (k, u) (l ++ [(k0, v0)]) <-> In (k, u) l.
Proof.
  intros Hne; rewrite in_app_iff; simpl; split; [|tauto].
  intros [H|[H|[]]]; [exact H|injection H as -> _; congruence].
Qed.

Lemma offers_maximum (offers : list (K * V)) (k : K) :
  let m := run_ops key_lt value_gt (offer_ops offers) in
  (map_find key_lt k m = None <-> forall u, ~ In (k, u) offers) /\
  (forall w, map_find key_lt k m = Some w ->
     In (k, w) offers /\ forall u, In (k, u) offers -> u = w \/ value_gt w u = true).
Proof.
  revert k; induction offers as [|x l IH] using rev_ind; intros k; cbv zeta.
  - simpl; split; [split; auto|discriminate].
  - destruct x as [k0 v0]; rewrite run_offer_ops_snoc.
    destruct (key_eq_dec k k0) as [->|Hne].
    2:{ rewrite insert_max_find_other by exact Hne.
        destruct (IH k) as [IH1 IH2]; split.
        - rewrite IH1; split; intros H u Hu; apply (H u); apply (in_snoc_other l k k0 u v0 Hne); auto.
        - intros w Hw; destruct (IH2 w Hw) as [Hin Hmax]; split.
          + apply in_or_app; auto.
          + intros u Hu; apply Hmax; apply (in_snoc_other l k k0 u v0 Hne); auto. }
    rewrite insert_max_find_same.
    assert (Hv0 : In (k0, v0) (l ++ [(k0, v0)])) by (apply in_or_app; right; left; reflexivity).
    destruct (IH k0) as [IH1 IH2].
    destruct (map_find key_lt k0 (run_ops key_lt value_gt (offer_ops l))) as [old|] eqn:F.
    + destruct (IH2 old eq_refl) as [Hold Hmax].
      split; [split; [discriminate|intros H; exfalso; exact (H v0 Hv0)]|].
      destruct (value_gt v0 old) eqn:G; intros w Hw; injection Hw as <-;
        (split; [apply in_or_app; simpl; auto|]);
        intros u Hu; apply in_app_or in Hu; destruct Hu as [Hu|[Hu|[]]].
      * destruct (Hmax u Hu) as [->|Hgt]; right; [exact G|eapply value_gt_trans; eauto].
      * injection Hu as <-; left; reflexivity.
      * apply Hmax; exact Hu.
      * injection Hu as <-.
        destruct (value_gt old v0) eqn:G'; [right; reflexivity|].
        left; apply value_gt_total; assumption.
    + split; [split; [discriminate|intros H; exfalso; exact (H v0 Hv0)]|].
      intros w Hw; injection Hw as <-; split; [exact Hv0|].
      intros u Hu; apply in_app_or in Hu; destruct Hu as [Hu|[Hu|[]]].
      * exfalso; apply (proj1 IH1 eq_refl u Hu).
      * injection Hu as <-; left; reflexivity.
Qed.

(** C1: on every map state reached by the public operations, [remove_top]
    removes and returns the entry of the smallest key present (every other
    key is greater, the entry is gone afterwards and the rest is untouched);
    calling it until it fails returns all entries with strictly increasing,
    hence non-decreasing, keys and leaves the map empty. *)
Theorem remove_top_takes_minimum (ops : list map_op) (key : K) (value : V) :
  let m := run_ops key_lt value_gt ops in
  (forall k v m', remove_top key value m = (true, k, v, m') ->
     map_find key_lt k m = Some v /\
     (forall k' v', map_find key_lt k' m = Some v' -> k' = k \/ key_lt k k' = true) /\
     map_find key_lt k m' = None /\
     (forall k', k' <> k -> map_find key_lt k' m' = map_find key_lt k' m)) /\
  (forall out rest, drain (length m) key value m = (out, rest) ->
     rest = [] /\
     StronglySorted (fun a b => key_lt a b = true) (map fst out) /\
     (forall k v, In (k, v) out <-> map_find key_lt k m = Some v)).
Proof.
  cbv zeta. pose proof (run_ops_sorted ops) as Hs.
  set (m := run_ops key_lt value_gt ops) in *.
  split.
  - intros k v m' Hr.
    destruct m as [|[a b] t]; [discriminate|].
    injection Hr as <- <- <-.
    inversion Hs as [|? ? Ht Hf]; subst.
    split; [simpl; now rewrite key_lt_irrefl|].
    split; [|split].
    + intros k' v' Hf'. apply find_in in Hf'. destruct Hf' as [Heq|Hin].
      * injection Heq as -> _; left; reflexivity.
      * right. rewrite Forall_forall in Hf; apply Hf. apply (in_map fst) in Hin; exact Hin.
    + apply find_none_below; exact Hf.
    + intros k' Hne; simpl.
      destruct (key_lt k' a) eqn:E1.
      * apply find_none_below. eapply forall_below_trans; eauto.
      * destruct (key_lt a k') eqn:E2; [reflexivity|].
        exfalso; apply Hne, key_lt_total; assumption.
  - intros out rest Hd. rewrite drain_all in Hd. injection Hd as <- <-.
    split; [reflexivity|split; [exact Hs|]].
    intros k v; split; [apply find_of_in; exact Hs|apply find_in].
Qed.

(** C4: [insert_max k v] inserts [(k, v)] when [k] is absent and otherwise
    replaces the stored value exactly when [v > stored], leaving the other
    keys alone; so after any sequence of [insert_max] calls on a fresh map,
    the value under each key is the maximum of the values offered for it
    (and a key is present exactly when some value was offered for it). *)
Theorem insert_max_is_running_maximum :
  (forall (m : map_t) (k : K) (v : V),
     map_find key_lt k (insert_max key_lt value_gt k v m) =
       match map_find key_lt k m with
       | None => Some v
       | Some old => Some (if value_gt v old then v else old)
       end /\
     (forall k', k' <> k ->
        map_find key_lt k' (insert_max key_lt value_gt k v m) = map_find key_lt k' m)) /\
  (forall (offers : list (K * V)) (k : K),
     let m := run_ops key_lt value_gt (map (fun kv => MInsertMax (fst kv) (snd kv)) offers) in
     (map_find key_lt k m = None <-> forall u, ~ In (k, u) offers) /\
     (forall w, map_find key_lt k m = Some w ->
        In (k, w) offers /\ forall u, In (k, u) offers -> u = w \/ value_gt w u = true)).
Proof.
  split.
  - intros m k v; split; [apply insert_max_find_same|].
    intros k' Hne; apply insert_max_find_other; exact Hne.
  - intros offers k; exact (offers_maximum offers k).
Qed.

End Facts.

(** C9: on an empty map (whatever operations emptied it) [remove_top]
    returns [false], and it keeps returning [false] on every further call:
    the empty case is a plain result, never an error. *)
Theorem remove_top_empty_reports_false {K V : Type} (key_lt : K -> K -> bool)
    (value_gt : V -> V -> bool) (ops : list (@map_op K V)) (n : nat) (key : K) (value : V) :
  run_ops key_lt value_gt ops = [] ->
  remove_top_results n key value (run_ops key_lt value_gt ops) = repeat false n.
Proof.
  intros ->; revert key value; induction n as [|n IH]; intros key value; simpl;
    [reflexivity|now rewrite IH].
Qed.

(** C10: when [remove_top] returns [false] the map was empty and the map and
    both output arguments are left unchanged; the outputs only change on the
    success path, where they receive the entry taken from the front. *)
Theorem remove_top_false_leaves_outputs {K V : Type} (m : @map_t K V) (key : K) (value : V)
    (b : bool) (k : K) (v : V) (m' : map_t) :
  remove_top key value m = (b, k, v, m') ->
  (b = false -> m = [] /\ m' = m /\ k = key /\ v = value) /\
  (b = true -> m = (k, v) :: m').
Proof.
  destruct m as [|[a c] t]; simpl; intros H; injection H as <- <- <- <-;
    split; intros Hb; try discriminate.
  - repeat split.
  - reflexivity.
Qed.

End TSMapFacts.

(* ================================================================== *)
(** ** Properties of [Flag] *)

Module FlagFacts.
Import Flag.

Definition is_set_op (o : flag_op) : bool := match o with FSet => true | _ => false end.

Lemma apply_flag_op_keeps_disarmed (s : flag_state) (o : flag_op) :
  disarmed_ s = true -> disarmed_ (apply_flag_op s o) = true.
Proof.
  destruct s as [f d]; simpl; intros ->.
  destruct o; simpl; try reflexivity.
  unfold wait_reset, wait_reset_pred; simpl; rewrite orb_true_r; reflexivity.
Qed.

Lemma run_flag_ops_keeps_disarmed (s : flag_state) (ops : list flag_op) :
  disarmed_ s = true -> disarmed_ (run_flag_ops s ops) = true.
Proof.
  unfold run_flag_ops; revert s; induction ops as [|o os IH]; simpl; intros s Hd; auto.
  apply IH, apply_flag_op_keeps_disarmed, Hd.
Qed.

(** C2 does not hold of [wait()]: on a fresh flag that is disarmed and
    never set, the wake-up predicate [[this] { return flag_; }] of [wait()]
    is false, so the waiter woken by [disarm()]'s [notify_all()] blocks
    again. *)
Lemma disarm_does_not_release_wait :
  wait_pred (disarm (Flag_new false)) = false /\ wait (disarm (Flag_new false)) = None.
Proof. split; reflexivity. Qed.

Lemma apply_flag_op_keeps_clear (s : flag_state) (o : flag_op) :
  is_set_op o = false -> flag_ s = false -> flag_ (apply_flag_op s o) = false.
Proof.
  destruct s as [f d]; simpl; intros Ho Hf; subst f.
  destruct o; simpl in *; try reflexivity; [discriminate|].
  unfold wait_reset, wait_reset_pred; simpl; destruct d; reflexivity.
Qed.

Lemma run_flag_ops_keeps_clear (s : flag_state) (ops : list flag_op) :
  existsb is_set_op ops = false -> flag_ s = false -> flag_ (run_flag_ops s ops) = false.
Proof.
  unfold run_flag_ops; revert s; induction ops as [|o os IH]; simpl; intros s Ho Hf; auto.
  apply orb_false_iff in Ho as [Ho Hos].
  apply IH; [exact Hos|apply apply_flag_op_keeps_clear; assumption].
Qed.

(** C2 (code defect): [disarm()] releases [wait_reset()] but not [wait()].
    From a clear flag, after [disarm()] and any calls of [reset], [disarm]
    and [wait_reset] (no [set]), [wait()] still blocks, while the wake-up
    predicate of [wait_reset()] holds. *)
Theorem wait_blocked_after_disarm_without_set (s : flag_state) (ops : list flag_op) :
  flag_ s = false -> existsb is_set_op ops = false ->
  wait (run_flag_ops (disarm s) ops) = None /\
  wait_reset_pred (run_flag_ops (disarm s) ops) = true.
Proof.
  intros Hf Ho.
  pose proof (run_flag_ops_keeps_clear (disarm s) ops Ho Hf) as Hc.
  pose proof (run_flag_ops_keeps_disarmed (disarm s) ops eq_refl) as Hd.
  unfold wait, wait_pred, wait_reset_pred; rewrite Hc, Hd; split; reflexivity.
Qed.

(** Once [disarm()] has run, the wake-up predicate of [wait_reset()] holds
    and keeps holding whatever [set], [reset], [disarm] or [wait_reset]
    calls follow, so [wait_reset()] never blocks again; a second
    [disarm()] changes nothing; and [disarm()] leaves the wake-up predicate
    of [wait()] as it was. *)
Theorem disarm_releases_wait_reset (s : flag_state) (ops : list flag_op) :
  wait_reset_pred (run_flag_ops (disarm s) ops) = true /\
  wait_reset (run_flag_ops (disarm s) ops) <> None /\
  disarm (disarm s) = disarm s /\
  wait_pred (disarm s) = wait_pred s.
Proof.
  pose proof (run_flag_ops_keeps_disarmed (disarm s) ops eq_refl) as Hd.
  assert (Hp : wait_reset_pred (run_flag_ops (disarm s) ops) = true)
    by (unfold wait_reset_pred; rewrite Hd, orb_true_r; reflexivity).
  split; [exact Hp|split; [|split; reflexivity]].
  unfold wait_reset; rewrite Hp; discriminate.
Qed.

(** C3 fails for a disarmed flag that is set: [wait_reset()] wakes up and
    returns with the flag still set. *)
Lemma wait_reset_keeps_set_when_disarmed :
  flag_ (mk_flag true true) = true /\
  wait_reset (mk_flag true true) = Some (mk_flag true true).
Proof. split; reflexivity. Qed.

(** C3 (as amended): [wait_reset()] blocks exactly while the flag is clear
    and armed. When it wakes up on an armed flag, the flag was set and is
    cleared before the call returns; when it wakes up on a disarmed flag,
    it returns without altering the state, whether the flag is set or not. *)
Theorem wait_reset_outcome (s : flag_state) :
  match wait_reset s with
  | None => flag_ s = false /\ disarmed_ s = false
  | Some s' =>
      if disarmed_ s then s' = s
      else flag_ s = true /\ s' = mk_flag false false
  end.
Proof. destruct s as [[|] [|]]; simpl; auto. Qed.

End FlagFacts.

(* ================================================================== *)
(** ** Properties of the CAS loops *)

Module AtomicFacts.
Import Atomic.

Section Converge.

Context {D : Type}.

(** The loop condition [cond prev new] reads "[new] improves on [prev]";
    it is a strict total order. *)
Variable cond : D -> D -> bool.
Hypothesis cond_irrefl : forall a, cond a a = false.
Hypothesis cond_trans : forall a b c, cond a b = true -> cond b c = true -> cond a c = true.
Hypothesis cond_total : forall a b, cond a b = false -> cond b a = false -> a = b.

(** [a] is at least as good as [b]. *)
Definition ge (a b : D) : Prop := a = b \/ cond b a = true.

Lemma ge_refl a : ge a a.
Proof. left; reflexivity. Qed.

Lemma ge_trans a b c : ge a b -> ge b c -> ge a c.
Proof.
  unfold ge; intros [->|H1] [->|H2]; auto.
  right; eapply cond_trans; eauto.
Qed.

Definition thread_ok (sh : D) (t : thread) : Prop :=
  match t with
  | TStart _ => True
  | TLoop prev _ => ge sh prev
  | TDone c => ge sh c
  end.

Lemma thread_ok_mono sh sh' t : ge sh' sh -> thread_ok sh t -> thread_ok sh' t.
Proof. destruct t; simpl; auto; intros; eapply ge_trans; eauto. Qed.

Lemma tstep_mono sh t sh' t' : tstep cond sh t sh' t' -> ge sh' sh.
Proof. intros H; inversion H; subst; [apply ge_refl|apply ge_refl|right; auto|apply ge_refl]. Qed.

Lemma tstep_ok sh t sh' t' : tstep cond sh t sh' t' -> thread_ok sh t -> thread_ok sh' t'.
Proof.
  intros H; inversion H as [? c0|? prev c0 Hc|prev c0 Hc|? prev c0 Hc]; subst; simpl;
    intros Hok; try apply ge_refl.
  destruct (cond c0 prev) eqn:Hb.
  - eapply ge_trans; [exact Hok|right; exact Hb].
  - rewrite (cond_total prev c0 Hc Hb) in Hok; exact Hok.
Qed.

Lemma tstep_proposal sh t sh' t' : tstep cond sh t sh' t' -> proposal t' = proposal t.
Proof. intros H; inversion H; reflexivity. Qed.

Lemma tstep_shared sh t sh' t' : tstep cond sh t sh' t' -> sh' = sh \/ sh' = proposal t.
Proof. intros H; inversion H; subst; simpl; auto. Qed.

Definition inv (init : D) (props : list D) (sh : D) (ths : list thread) : Prop :=
  map proposal ths = props /\ (sh = init \/ In sh props) /\ ge sh init /\
  Forall (thread_ok sh) ths.

Lemma step_mono sh ts sh' ts' : step cond sh ts sh' ts' -> ge sh' sh.
Proof. intros H; inversion H; subst; eapply tstep_mono; eauto. Qed.

Lemma step_inv init props sh ts sh' ts' :
  step cond sh ts sh' ts' -> inv init props sh ts -> inv init props sh' ts'.
Proof.
  intros H; inversion H as [pre post ? t ? t' Ht]; subst.
  intros (Hp & Hin & Hge & Hall).
  pose proof (tstep_mono _ _ _ _ Ht) as Hm.
  rewrite Forall_app in Hall; destruct Hall as [Hpre Hpost]; inversion Hpost as [|? ? Hok Hrest].
  split; [|split; [|split]].
  - rewrite <- Hp, !map_app; simpl; rewrite (tstep_proposal _ _ _ _ Ht); reflexivity.
  - destruct (tstep_shared _ _ _ _ Ht) as [Es|Es]; rewrite Es; [exact Hin|].
    right; rewrite <- Hp, map_app, in_app_iff; simpl; auto.
  - eapply ge_trans; eauto.
  - rewrite Forall_app; split; [|constructor].
    + eapply Forall_impl; [|exact Hpre]; intros; eapply thread_ok_mono; eauto.
    + eapply tstep_ok; eauto.
    + eapply Forall_impl; [|exact Hrest]; intros; eapply thread_ok_mono; eauto.
Qed.

Lemma steps_inv init props sh ts sh' ts' :
  steps cond sh ts sh' ts' -> inv init props sh ts -> inv init props sh' ts'.
Proof.
  induction 1 as [|? ? ? ? ? ? Hs _ IH]; auto.
  intros Hi; apply IH; eapply step_inv; eauto.
Qed.

(** Every complete execution of one call per participant leaves the best of
    the initial value and all proposals in the shared cell. *)
Lemma cas_loops_result init props sh ths :
  steps cond init (map TStart props) sh ths -> Forall is_done ths ->
  In sh (init :: props) /\ forall x, In x (init :: props) -> ge sh x.
Proof.
  intros Hs Hd.
  assert (Hi : inv init props init (map TStart props)).
  { split; [rewrite map_map; simpl; apply map_id|split; [left; reflexivity|split; [apply ge_refl|]]].
    rewrite Forall_forall; intros t Ht; apply in_map_iff in Ht; destruct Ht as (c & <- & _); exact I. }
  destruct (steps_inv _ _ _ _ _ _ Hs Hi) as (Hp & Hin & Hge & Hall).
  split; [destruct Hin; simpl; auto|].
  intros x [<-|Hx]; [exact Hge|].
  rewrite <- Hp in Hx; apply in_map_iff in Hx; destruct Hx as (t & <- & Ht).
  rewrite Forall_forall in Hall, Hd.
  specialize (Hall t Ht); specialize (Hd t Ht); destruct t; simpl in *; tauto.
Qed.

Lemma cas_loop_solo s c s' :
  steps cond s [TStart c] s' [TDone c] -> s' = if cond s c then c else s.
Proof.
  intros Hs.
  destruct (cas_loops_result s [c] s' [TDone c] Hs) as [Hin Hall]; [repeat constructor|].
  assert (Gs : ge s' s) by (apply Hall; simpl; auto).
  assert (Gc : ge s' c) by (apply Hall; simpl; auto).
  simpl in Hin; destruct (cond s c) eqn:Hc; destruct Hin as [<-|[<-|[]]]; auto.
  - destruct Gc as [->|Gc]; [rewrite cond_irrefl in Hc; discriminate|].
    pose proof (cond_trans _ _ _ Hc Gc) as Hss; rewrite cond_irrefl in Hss; discriminate.
  - destruct Gs as [->|Gs]; [reflexivity|congruence].
Qed.

End Converge.

(** C5: [atomic_maximum] / [atomic_minimum] over any [Dtype] whose [<] is a
    strict total order. Run alone, a call stores [c] exactly when [c] is
    greater (resp. less) than the current value, and leaves the value
    unchanged otherwise. Under any interleaving of one call per participant,
    with compare-exchange failing spuriously at any time, every complete
    execution leaves exactly the maximum (resp. minimum) of the initial value
    and all proposals. Every step leaves the stored value unchanged or moves
    it up (resp. down): it never regresses. *)
Theorem atomic_extremum_cas_loops {D : Type} (lt : D -> D -> bool)
    (lt_irrefl : forall a, lt a a = false)
    (lt_trans : forall a b c, lt a b = true -> lt b c = true -> lt a c = true)
    (lt_total : forall a b, lt a b = false -> lt b a = false -> a = b) :
  (forall s c s', steps (atomic_maximum_cond lt) s [TStart c] s' [TDone c] ->
     s' = if lt s c then c else s) /\
  (forall s c s', steps (atomic_minimum_cond lt) s [TStart c] s' [TDone c] ->
     s' = if lt c s then c else s) /\
  (forall init props sh ths,
     steps (atomic_maximum_cond lt) init (map TStart props) sh ths -> Forall is_done ths ->
     In sh (init :: props) /\ forall x, In x (init :: props) -> x = sh \/ lt x sh = true) /\
  (forall init props sh ths,
     steps (atomic_minimum_cond lt) init (map TStart props) sh ths -> Forall is_done ths ->
     In sh (init :: props) /\ forall x, In x (init :: props) -> x = sh \/ lt sh x = true) /\
  (forall sh ts sh' ts', step (atomic_maximum_cond lt) sh ts sh' ts' ->
     sh' = sh \/ lt sh sh' = true) /\
  (forall sh ts sh' ts', step (atomic_minimum_cond lt) sh ts sh' ts' ->
     sh' = sh \/ lt sh' sh = true).
Proof.
  assert (Hmin_irr : forall a, atomic_minimum_cond lt a a = false) by (intros; apply lt_irrefl).
  assert (Hmin_tr : forall a b c, atomic_minimum_cond lt a b = true ->
            atomic_minimum_cond lt b c = true -> atomic_minimum_cond lt a c = true)
    by (unfold atomic_minimum_cond; eauto).
  assert (Hmin_tot : forall a b, atomic_minimum_cond lt a b = false ->
            atomic_minimum_cond lt b a = false -> a = b)
    by (unfold atomic_minimum_cond; intros; apply lt_total; auto).
  split; [|split; [|split; [|split; [|split]]]].
  - intros s c s' H; exact (cas_loop_solo (atomic_maximum_cond lt) lt_irrefl lt_trans lt_total s c s' H).
  - intros s c s' H; exact (cas_loop_solo (atomic_minimum_cond lt) Hmin_irr Hmin_tr Hmin_tot s c s' H).
  - intros init props sh ths H Hd.
    destruct (cas_loops_result (atomic_maximum_cond lt) lt_irrefl lt_trans lt_total init props sh ths H Hd)
      as [Hin Hall].
    split; [exact Hin|intros x Hx; destruct (Hall x Hx); auto].
  - intros init props sh ths H Hd.
    destruct (cas_loops_result (atomic_minimum_cond lt) Hmin_irr Hmin_tr Hmin_tot init props sh ths H Hd)
      as [Hin Hall].
    split; [exact Hin|intros x Hx; destruct (Hall x Hx); auto].
  - intros sh ts sh' ts' H; exact (step_mono (atomic_maximum_cond lt) _ _ _ _ H).
  - intros sh ts sh' ts' H; exact (step_mono (atomic_minimum_cond lt) _ _ _ _ H).
Qed.

End AtomicFacts.

(* ================================================================== *)
(** ** Properties of the [Caffe] statics *)

Module CaffeFacts.
Import CaffeState.

Lemma epoch_cond_irrefl (a : N) : epoch_cond a a = false.
Proof. apply N.ltb_irrefl. Qed.

Lemma epoch_cond_trans (a b c : N) :
  epoch_cond a b = true -> epoch_cond b c = true -> epoch_cond a c = true.
Proof. unfold epoch_cond, Atomic.atomic_minimum_cond; rewrite !N.ltb_lt; lia. Qed.

Lemma epoch_cond_total (a b : N) : epoch_cond a b = false -> epoch_cond b a = false -> a = b.
Proof. unfold epoch_cond, Atomic.atomic_minimum_cond; rewrite !N.ltb_ge; lia. Qed.

(** C6: [epoch_count()] maps the unset sentinel [(size_t)-1] to 0 and never
    returns the sentinel, so it returns 0 before any report. Once the
    reporting calls of [report_epoch_count(e)] (each [e] below the sentinel,
    at least one) have all returned, under any interleaving of their CAS
    loops, it returns the minimum of the reported values. *)
Theorem epoch_count_after_reports (reports : list N) (sh : N) (ths : list Atomic.thread) :
  Atomic.steps epoch_cond epoch_count_init (map report_epoch_count reports) sh ths ->
  Forall Atomic.is_done ths ->
  Forall (fun e => (e < size_t_minus_one)%N) reports ->
  reports <> [] ->
  (forall c, epoch_count c <> size_t_minus_one) /\
  epoch_count epoch_count_init = 0%N /\
  In (epoch_count sh) reports /\
  (forall e, In e reports -> (epoch_count sh <= e)%N).
Proof.
  intros Hs Hd Hb Hne.
  assert (Hnot : forall c, epoch_count c <> size_t_minus_one).
  { intros c; unfold epoch_count; destruct (N.eqb_spec c size_t_minus_one) as [_|Hc];
      [unfold size_t_minus_one, SIZE_MAX; simpl; discriminate|exact Hc]. }
  split; [exact Hnot|split; [reflexivity|]].
  destruct (AtomicFacts.cas_loops_result epoch_cond epoch_cond_irrefl epoch_cond_trans
              epoch_cond_total epoch_count_init reports sh ths Hs Hd) as [Hin Hall].
  rewrite Forall_forall in Hb.
  assert (Hle : forall x, In x (epoch_count_init :: reports) -> (sh <= x)%N).
  { intros x Hx; destruct (Hall x Hx) as [->|Hlt]; [lia|].
    unfold epoch_cond, Atomic.atomic_minimum_cond in Hlt; apply N.ltb_lt in Hlt; lia. }
  destruct reports as [|r rs]; [congruence|].
  assert (Hsh : (sh < size_t_minus_one)%N).
  { specialize (Hle r (or_intror (or_introl eq_refl))); specialize (Hb r (or_introl eq_refl)); lia. }
  assert (Hec : epoch_count sh = sh).
  { unfold epoch_count; destruct (N.eqb_spec sh size_t_minus_one); [lia|reflexivity]. }
  rewrite Hec; split.
  - destruct Hin as [Hi|Hi]; [unfold epoch_count_init in Hi; lia|exact Hi].
  - intros e He; apply Hle; right; exact He.
Qed.

(** C7: [set_gpus(gpus)] never leaves the device list empty: an empty
    argument yields [[root_device_]], any other argument is stored as is. *)
Theorem set_gpus_nonempty (st : statics) (gpus : list Z) :
  gpus_ (set_gpus st gpus) <> [] /\
  gpus_ (set_gpus st gpus) = match gpus with [] => [root_device_ st] | _ => gpus end.
Proof. destruct gpus; simpl; split; congruence. Qed.

(** C8: [set_mode(m)] with [m] the current mode changes nothing and calls
    [init()] zero times (so setting the same mode twice is a no-op); with a
    different mode it stores [m] and calls [init()] exactly once. *)
Theorem set_mode_reinit_once (st : statics) (m : Brew) :
  (mode_ st = m -> set_mode st m = st) /\
  (mode_ st <> m ->
     mode_ (set_mode st m) = m /\
     init_calls (set_mode st m) = S (init_calls st) /\
     gpus_ (set_mode st m) = gpus_ st /\
     root_device_ (set_mode st m) = root_device_ st) /\
  set_mode (set_mode st m) m = set_mode st m.
Proof.
  destruct st as [r g md n]; destruct md, m; simpl; repeat split; congruence.
Qed.

End CaffeFacts.

(* ================================================================== *)
(** ** Concrete instances *)

Module Witnesses.
Import TSMap.

Lemma nat_ltb_irrefl (a : nat) : Nat.ltb a a = false.
Proof. apply Nat.ltb_irrefl. Qed.

Lemma nat_ltb_trans (a b c : nat) : Nat.ltb a b = true -> Nat.ltb b c = true -> Nat.ltb a c = true.
Proof. rewrite !Nat.ltb_lt; lia. Qed.

Lemma nat_ltb_total (a b : nat) : Nat.ltb a b = false -> Nat.ltb b a = false -> a = b.
Proof. rewrite !Nat.ltb_ge; lia. Qed.

Definition nat_gtb (a b : nat) : bool := Nat.ltb b a.

Lemma nat_gtb_trans (a b c : nat) : nat_gtb a b = true -> nat_gtb b c = true -> nat_gtb a c = true.
Proof. unfold nat_gtb; rewrite !Nat.ltb_lt; lia. Qed.

Lemma nat_gtb_total (a b : nat) : nat_gtb a b = false -> nat_gtb b a = false -> a = b.
Proof. unfold nat_gtb; rewrite !Nat.ltb_ge; lia. Qed.

Definition sample_ops : list (@map_op nat nat) :=
  [MInsert 3 30; MInsert 1 10; MInsertMax 2 20; MInsertMax 1 15; MErase 4].

(** [std::map<int, int>] with [std::less]: [remove_top] takes key 1. *)
Lemma remove_top_takes_minimum_witness :
  run_ops Nat.ltb nat_gtb sample_ops = [(1, 15); (2, 20); (3, 30)] /\
  remove_top 0 0 (run_ops Nat.ltb nat_gtb sample_ops) = (true, 1, 15, [(2, 20); (3, 30)]) /\
  (forall k' v', map_find Nat.ltb k' (run_ops Nat.ltb nat_gtb sample_ops) = Some v' ->
     k' = 1 \/ Nat.ltb 1 k' = true).
Proof.
  destruct (TSMapFacts.remove_top_takes_minimum Nat.ltb nat_gtb nat_ltb_irrefl nat_ltb_trans
              nat_ltb_total sample_ops 0 0) as [H1 _].
  split; [reflexivity|split; [reflexivity|]].
  exact (proj1 (proj2 (H1 1 15 [(2, 20); (3, 30)] eq_refl))).
Defined.

Definition sample_offers : list (nat * nat) := [(1, 5); (2, 4); (1, 9); (1, 7)].

(** Offers 5, 9, 7 for key 1: the map keeps 9. *)
Lemma insert_max_is_running_maximum_witness :
  map_find Nat.ltb 1
    (run_ops Nat.ltb nat_gtb (map (fun kv => MInsertMax (fst kv) (snd kv)) sample_offers)) = Some 9 /\
  (forall u, In (1, u) sample_offers -> u = 9 \/ nat_gtb 9 u = true).
Proof.
  destruct (TSMapFacts.insert_max_is_running_maximum Nat.ltb nat_gtb nat_ltb_irrefl nat_ltb_trans
              nat_ltb_total nat_gtb_trans nat_gtb_total) as [_ H2].
  split; [reflexivity|].
  exact (proj2 (proj2 (H2 sample_offers 1) 9 eq_refl)).
Defined.

(** Three calls of [remove_top] after [insert] then [remove_top]. *)
Lemma remove_top_empty_reports_false_witness :
  run_ops Nat.ltb nat_gtb [MInsert 1 1; MRemoveTop] = [] /\
  remove_top_results 3 7 8 (run_ops Nat.ltb nat_gtb [MInsert 1 1; MRemoveTop]) = [false; false; false].
Proof.
  split; [reflexivity|].
  exact (TSMapFacts.remove_top_empty_reports_false Nat.ltb nat_gtb [MInsert 1 1; MRemoveTop] 3 7 8
           eq_refl).
Defined.

(** The empty call keeps the outputs 7 and 8; the successful one writes 1, 2. *)
Lemma remove_top_false_leaves_outputs_witness :
  remove_top 7 8 [] = (false, 7, 8, []) /\
  ((@nil (nat * nat)) = [] /\ (@nil (nat * nat)) = [] /\ 7 = 7 /\ 8 = 8) /\
  remove_top 7 8 [(1, 2)] = (true, 1, 2, []) /\
  [(1, 2)] = [(1, 2)].
Proof.
  split; [reflexivity|split; [|split; [reflexivity|]]].
  - exact (proj1 (TSMapFacts.remove_top_false_leaves_outputs [] 7 8 false 7 8 [] eq_refl) eq_refl).
  - exact (proj2 (TSMapFacts.remove_top_false_leaves_outputs [(1, 2)] 7 8 true 1 2 [] eq_refl) eq_refl).
Defined.

Lemma N_ltb_irrefl (a : N) : N.ltb a a = false.
Proof. apply N.ltb_irrefl. Qed.

Lemma N_ltb_trans (a b c : N) : N.ltb a b = true -> N.ltb b c = true -> N.ltb a c = true.
Proof. rewrite !N.ltb_lt; lia. Qed.

Lemma N_ltb_total (a b : N) : N.ltb a b = false -> N.ltb b a = false -> a = b.
Proof. rewrite !N.ltb_ge; lia. Qed.

(** [atomic_maximum] alone on 3 with 7: load, then a successful exchange. *)
Lemma solo_max_run :
  Atomic.steps (Atomic.atomic_maximum_cond N.ltb) 3%N [Atomic.TStart 7%N] 7%N [Atomic.TDone 7%N].
Proof.
  apply Atomic.steps_cons with (sh1 := 3%N) (ts1 := [Atomic.TLoop 3%N 7%N]).
  { exact (Atomic.step_at _ [] [] _ _ _ _ (Atomic.ts_load _ _ _)). }
  apply Atomic.steps_cons with (sh1 := 7%N) (ts1 := [Atomic.TDone 7%N]).
  { exact (Atomic.step_at _ [] [] _ _ _ _ (Atomic.ts_cas_ok _ 3%N 7%N eq_refl)). }
  apply Atomic.steps_refl.
Qed.

Lemma atomic_extremum_cas_loops_witness :
  Atomic.steps (Atomic.atomic_maximum_cond N.ltb) 3%N [Atomic.TStart 7%N] 7%N [Atomic.TDone 7%N] /\
  7%N = (if N.ltb 3 7 then 7 else 3)%N.
Proof.
  split; [exact solo_max_run|].
  exact (proj1 (AtomicFacts.atomic_extremum_cas_loops N.ltb N_ltb_irrefl N_ltb_trans N_ltb_total)
           3%N 7%N 7%N solo_max_run).
Defined.

(** Two [report_epoch_count] calls, 5 and 3, interleaved: both load the
    sentinel, 5 is stored, the exchange of 3 fails and is retried. *)
Lemma two_reports_run :
  Atomic.steps CaffeState.epoch_cond CaffeState.epoch_count_init
    (map CaffeState.report_epoch_count [5%N; 3%N]) 3%N [Atomic.TDone 5%N; Atomic.TDone 3%N].
Proof.
  set (MX := CaffeState.epoch_count_init).
  apply Atomic.steps_cons with (sh1 := MX) (ts1 := [Atomic.TLoop MX 5%N; Atomic.TStart 3%N]).
  { exact (Atomic.step_at _ [] [Atomic.TStart 3%N] _ _ _ _ (Atomic.ts_load _ _ _)). }
  apply Atomic.steps_cons with (sh1 := MX) (ts1 := [Atomic.TLoop MX 5%N; Atomic.TLoop MX 3%N]).
  { exact (Atomic.step_at _ [Atomic.TLoop MX 5%N] [] _ _ _ _ (Atomic.ts_load _ _ _)). }
  apply Atomic.steps_cons with (sh1 := 5%N) (ts1 := [Atomic.TDone 5%N; Atomic.TLoop MX 3%N]).
  { exact (Atomic.step_at _ [] [Atomic.TLoop MX 3%N] _ _ _ _ (Atomic.ts_cas_ok _ MX 5%N eq_refl)). }
  apply Atomic.steps_cons with (sh1 := 5%N) (ts1 := [Atomic.TDone 5%N; Atomic.TLoop 5%N 3%N]).
  { exact (Atomic.step_at _ [Atomic.TDone 5%N] [] _ _ _ _ (Atomic.ts_cas_fail _ 5%N MX 3%N eq_refl)). }
  apply Atomic.steps_cons with (sh1 := 3%N) (ts1 := [Atomic.TDone 5%N; Atomic.TDone 3%N]).
  { exact (Atomic.step_at _ [Atomic.TDone 5%N] [] _ _ _ _ (Atomic.ts_cas_ok _ 5%N 3%N eq_refl)). }
  apply Atomic.steps_refl.
Qed.

Lemma epoch_count_after_reports_witness :
  CaffeState.epoch_count 3%N = 3%N /\
  In (CaffeState.epoch_count 3%N) [5%N; 3%N] /\
  (forall e, In e [5%N; 3%N] -> (CaffeState.epoch_count 3%N <= e)%N).
Proof.
  destruct (CaffeFacts.epoch_count_after_reports [5%N; 3%N] 3%N [Atomic.TDone 5%N; Atomic.TDone 3%N]
              two_reports_run
              ltac:(repeat constructor)
              ltac:(repeat constructor; vm_compute; reflexivity)
              ltac:(discriminate)) as (_ & _ & Hin & Hle).
  split; [reflexivity|split; [exact Hin|exact Hle]].
Defined.

End Witnesses.

(* ================================================================== *)
(** ** Properties of the bit helpers *)

Module AlignFacts.
Import Align.
Open Scope Z_scope.

Lemma land_mod_pow2 (w val x : Z) :
  0 <= w -> 0 <= val < 2 ^ w -> Z.land val (x mod 2 ^ w) = Z.land val x.
Proof.
  intros Hw Hv.
  rewrite <- Z.land_ones by exact Hw.
  rewrite (Z.land_comm x), Z.land_assoc, Z.land_ones by exact Hw.
  rewrite Z.mod_small by exact Hv; reflexivity.
Qed.

Lemma mask_ones (p : Z) : 0 <= p -> mask p = Z.ones p.
Proof. intros Hp; unfold mask; rewrite Z.shiftl_1_l, Z.ones_equiv; lia. Qed.

Lemma lor_as_add (a b : Z) : Z.lor a b = Z.ldiff a b + b.
Proof.
  assert (H0 : Z.land (Z.ldiff a b) b = 0).
  { apply Z.bits_inj'; intros n _; rewrite Z.land_spec, Z.ldiff_spec, Z.bits_0.
    destruct (Z.testbit a n), (Z.testbit b n); reflexivity. }
  rewrite Z.add_nocarry_lxor by exact H0. rewrite Z.lxor_lor by exact H0.
  apply Z.bits_inj'; intros n _; rewrite !Z.lor_spec, Z.ldiff_spec.
  destruct (Z.testbit a n), (Z.testbit b n); reflexivity.
Qed.

Lemma pow2_pos (p : Z) : 0 <= p -> 0 < 2 ^ p.
Proof. intros; apply Z.pow_pos_nonneg; lia. Qed.

Lemma width_nonneg (w val : Z) : 0 <= val < 2 ^ w -> 0 <= w.
Proof.
  intros Hv; destruct (Z.le_gt_cases 0 w) as [|Hw]; [assumption|].
  rewrite Z.pow_neg_r in Hv by lia; lia.
Qed.

Lemma pow2_split (w p : Z) : 0 <= w <= p -> 2 ^ p = 2 ^ (p - w) * 2 ^ w.
Proof. intros H; rewrite <- Z.pow_add_r by lia; f_equal; lia. Qed.

Lemma ones_mod_pow2 (w p : Z) : 0 <= w <= p -> Z.ones p mod 2 ^ w = Z.ones w.
Proof.
  intros H; pose proof (pow2_pos w ltac:(lia)) as Hw.
  pose proof (pow2_pos (p - w) ltac:(lia)) as Hpw.
  rewrite !Z.ones_equiv, (pow2_split w p H).
  replace (Z.pred (2 ^ (p - w) * 2 ^ w)) with (Z.pred (2 ^ w) + (2 ^ (p - w) - 1) * 2 ^ w) by lia.
  rewrite Z.mod_add by lia. apply Z.mod_small; lia.
Qed.

Lemma lor_ones_small (w val : Z) : 0 <= w -> 0 <= val < 2 ^ w -> Z.lor val (Z.ones w) = Z.ones w.
Proof.
  intros Hw Hv.
  rewrite lor_as_add, Z.ldiff_ones_r, Z.shiftl_mul_pow2, Z.shiftr_div_pow2 by lia.
  rewrite Z.div_small by lia; reflexivity.
Qed.

Lemma align_down_eq (w p val : Z) :
  0 <= p -> 0 <= val < 2 ^ w -> align_down w p val = val / 2 ^ p * 2 ^ p.
Proof.
  intros Hp Hv; pose proof (width_nonneg w val Hv) as Hw.
  destruct (Z.le_gt_cases p w) as [Hpw|Hpw].
  - unfold align_down, to_T.
    rewrite land_mod_pow2 by lia.
    rewrite mask_ones, <- Z.ldiff_land, Z.ldiff_ones_r, Z.shiftl_mul_pow2, Z.shiftr_div_pow2 by lia.
    reflexivity.
  - (* [power] above the width of [T]: the mask [~((1 << power) - 1)] keeps no bit of [T] *)
    assert (Hle : 2 ^ w <= 2 ^ p) by (apply Z.pow_le_mono_r; lia).
    unfold align_down, to_T.
    replace (Z.lnot (mask p)) with (- 2 ^ (p - w) * 2 ^ w)
      by (rewrite mask_ones, Z.lnot_eq_pred_opp, Z.ones_equiv, (pow2_split w p) by lia; lia).
    rewrite Z.mod_mul by (pose proof (pow2_pos w Hw); lia).
    rewrite Z.land_0_r, Z.div_small by lia; reflexivity.
Qed.

Lemma align_up_eq (w p val : Z) :
  0 <= p -> 0 <= val < 2 ^ w ->
  align_up w p val =
  if Z.eqb (val mod 2 ^ p) 0 then val else (val / 2 ^ p * 2 ^ p + 2 ^ p) mod 2 ^ w.
Proof.
  intros Hp Hv; pose proof (width_nonneg w val Hv) as Hw.
  destruct (Z.le_gt_cases p w) as [Hpw|Hpw].
  2:{ (* [power] above the width of [T]: the mask keeps every bit of [T] *)
    assert (Hle : 2 ^ w <= 2 ^ p) by (apply Z.pow_le_mono_r; lia).
    pose proof (pow2_pos w Hw) as Hpos.
    unfold align_up, to_T.
    rewrite mask_ones, ones_mod_pow2, Z.land_ones, (Z.mod_small val (2 ^ w)),
      (Z.mod_small val (2 ^ p)), Z.div_small by lia.
    destruct (Z.eqb val 0); [reflexivity|].
    rewrite lor_ones_small, Z.ones_equiv by lia.
    replace (Z.pred (2 ^ w) + 1) with (2 ^ w) by lia.
    replace (0 * 2 ^ p + 2 ^ p) with (2 ^ (p - w) * 2 ^ w) by (rewrite <- pow2_split; lia).
    rewrite Z.mod_same, Z.mod_mul by lia; reflexivity. }
  unfold align_up, to_T.
  assert (Hle : 2 ^ p <= 2 ^ w) by (apply Z.pow_le_mono_r; lia).
  assert (Hm : Z.ones p mod 2 ^ w = Z.ones p)
    by (apply Z.mod_small; rewrite Z.ones_equiv; pose proof (pow2_pos p); lia).
  rewrite mask_ones, Hm, Z.land_ones by lia.
  destruct (Z.eqb (val mod 2 ^ p) 0); [reflexivity|].
  rewrite lor_as_add, Z.ldiff_ones_r, Z.shiftl_mul_pow2, Z.shiftr_div_pow2, Z.ones_equiv by lia.
  f_equal; lia.
Qed.

(** [align_down<power>(val)] on an unsigned [w]-bit [T] (with [power <= 30],
    so that [1 << power] fits in [int]) is the largest multiple of
    [2^power] not above [val], also when [power] exceeds the width of [T]. *)
Theorem align_down_largest_multiple (w p val : Z) :
  0 <= p <= 30 -> 0 <= val < 2 ^ w ->
  0 <= align_down w p val <= val /\
  align_down w p val mod 2 ^ p = 0 /\
  val < align_down w p val + 2 ^ p.
Proof.
  intros Hp Hv; rewrite align_down_eq by lia.
  pose proof (pow2_pos p ltac:(lia)) as Hpos.
  pose proof (Z.div_mod val (2 ^ p) ltac:(lia)) as Hdm.
  pose proof (Z.mod_pos_bound val (2 ^ p) Hpos) as Hb.
  pose proof (Z.div_pos val (2 ^ p) ltac:(lia) Hpos) as Hq.
  split; [nia|split; [apply Z.mod_mul; lia|nia]].
Qed.

(** [align_up<power>(val)] is the smallest multiple of [2^power] not below
    [val] whenever that multiple fits in [T], i.e. [val <= 2^w - 2^power]. *)
Theorem align_up_smallest_multiple (w p val : Z) :
  0 <= p <= 30 -> p <= w -> 0 <= val <= 2 ^ w - 2 ^ p ->
  val <= align_up w p val /\
  align_up w p val mod 2 ^ p = 0 /\
  align_up w p val < val + 2 ^ p.
Proof.
  intros Hp Hpw Hv.
  pose proof (pow2_pos p ltac:(lia)) as Hpos.
  assert (HW : 2 ^ w = 2 ^ p * 2 ^ (w - p)) by (rewrite <- Z.pow_add_r by lia; f_equal; lia).
  rewrite align_up_eq by lia.
  pose proof (Z.div_mod val (2 ^ p) ltac:(lia)) as Hdm.
  pose proof (Z.mod_pos_bound val (2 ^ p) Hpos) as Hb.
  destruct (Z.eqb_spec (val mod 2 ^ p) 0) as [H0|H0].
  - split; [lia|split; [exact H0|lia]].
  - set (q := val / 2 ^ p) in *. set (M := 2 ^ (w - p)) in *.
    assert (Hq : q + 1 < M) by nia.
    rewrite Z.mod_small by nia.
    split; [nia|split; [|nia]].
    replace (q * 2 ^ p + 2 ^ p) with ((q + 1) * 2 ^ p) by ring. apply Z.mod_mul; lia.
Qed.

(** Above the last multiple of [2^power] that fits in [T], an unaligned
    [val] makes [align_up] wrap around to 0; when [power] exceeds the width
    of [T] this is every nonzero [val]. *)
Theorem align_up_wraps_to_zero (w p val : Z) :
  0 <= p <= 30 -> 0 <= val < 2 ^ w -> 2 ^ w - 2 ^ p < val -> val mod 2 ^ p <> 0 ->
  align_up w p val = 0.
Proof.
  intros Hp Hv Hv' Hn.
  pose proof (width_nonneg w val Hv) as Hw0.
  pose proof (pow2_pos p ltac:(lia)) as Hpos.
  destruct (Z.le_gt_cases p w) as [Hpw|Hpw].
  2:{ pose proof (pow2_pos w Hw0) as Hposw.
    assert (Hle : 2 ^ w <= 2 ^ p) by (apply Z.pow_le_mono_r; lia).
    rewrite align_up_eq by lia.
    destruct (Z.eqb_spec (val mod 2 ^ p) 0) as [H0|_]; [contradiction|].
    rewrite Z.div_small by lia.
    replace (0 * 2 ^ p + 2 ^ p) with (2 ^ (p - w) * 2 ^ w) by (rewrite <- pow2_split; lia).
    apply Z.mod_mul; lia. }
  assert (Hle : 2 ^ p <= 2 ^ w) by (apply Z.pow_le_mono_r; lia).
  assert (HW : 2 ^ w = 2 ^ p * 2 ^ (w - p)) by (rewrite <- Z.pow_add_r by lia; f_equal; lia).
  rewrite align_up_eq by lia.
  destruct (Z.eqb_spec (val mod 2 ^ p) 0) as [H0|_]; [contradiction|].
  pose proof (Z.div_mod val (2 ^ p) ltac:(lia)) as Hdm.
  pose proof (Z.mod_pos_bound val (2 ^ p) Hpos) as Hb.
  set (q := val / 2 ^ p) in *. set (M := 2 ^ (w - p)) in *.
  assert (Hq : q = M - 1) by nia.
  replace (q * 2 ^ p + 2 ^ p) with (2 ^ w) by (rewrite HW, Hq; ring).
  apply Z.mod_same; lia.
Qed.

Lemma land_1 (a : Z) : Z.land a 1 = a mod 2.
Proof. exact (Z.land_ones a 1 ltac:(lia)). Qed.

(** [even(val)] on an unsigned [w]-bit [T] always satisfies [is_even]; below
    the largest value it is the smallest even number not below [val], and on
    the largest value [2^w - 1] it wraps around to 0. *)
Theorem even_rounds_up_to_even (w val : Z) :
  1 <= w -> 0 <= val < 2 ^ w ->
  is_even (even w val) = true /\
  (val < 2 ^ w - 1 -> val <= even w val <= val + 1) /\
  (val = 2 ^ w - 1 -> even w val = 0).
Proof.
  intros Hw Hv.
  assert (HW : 2 ^ w = 2 * 2 ^ (w - 1)) by (rewrite <- Z.pow_succ_r by lia; f_equal; lia).
  unfold even, is_even, to_T; rewrite !land_1.
  pose proof (Z.mod_pos_bound val 2 ltac:(lia)) as Hb.
  pose proof (Z.div_mod val 2 ltac:(lia)) as Hdm.
  destruct (Z.eqb_spec (val mod 2) 0) as [He|Ho]; simpl.
  - split; [rewrite He; reflexivity|split; [lia|]].
    intros ->; exfalso; rewrite HW in He.
    replace (2 * 2 ^ (w - 1) - 1) with (1 + (2 ^ (w - 1) - 1) * 2) in He by ring.
    rewrite Z.mod_add in He by lia; simpl in He; discriminate.
  - assert (Hodd : val mod 2 = 1) by lia.
    destruct (Z.eq_dec val (2 ^ w - 1)) as [Htop|Hlow].
    + rewrite Htop; replace (2 ^ w - 1 + 1) with (2 ^ w) by ring.
      rewrite Z.mod_same by lia.
      split; [reflexivity|split; [lia|reflexivity]].
    + rewrite (Z.mod_small (val + 1)) by lia.
      split; [|split; [lia|lia]].
      apply Z.eqb_eq. rewrite Z.add_mod, Hodd by lia; reflexivity.
Qed.

End AlignFacts.

(* ================================================================== *)
(** ** Further properties of [Flag] *)

Module FlagFacts2.
Import Flag.

Definition is_disarm (o : flag_op) : bool := match o with FDisarm => true | _ => false end.

(** [disarmed_] is changed only by [disarm()], and never back: after any
    sequence of operations it is set exactly when it was set before or some
    operation was a [disarm()]. *)
Theorem disarmed_only_by_disarm (s : flag_state) (ops : list flag_op) :
  disarmed_ (run_flag_ops s ops) = disarmed_ s || existsb is_disarm ops.
Proof.
  unfold run_flag_ops; revert s; induction ops as [|o os IH]; intros s; simpl.
  - rewrite orb_false_r; reflexivity.
  - rewrite IH; destruct s as [f d]; destruct o; simpl;
      try (destruct d; reflexivity).
    unfold wait_reset, wait_reset_pred; simpl.
    destruct f, d; reflexivity.
Qed.

(** On an armed flag, [set()] is consumed by exactly one [wait_reset()]: the
    first one returns and clears the flag, a second one blocks. *)
Theorem set_consumed_once (f : bool) :
  match wait_reset (set (Flag_new f)) with
  | Some s' => flag_ s' = false /\ disarmed_ s' = false /\ wait_reset s' = None
  | None => False
  end.
Proof. destruct f; simpl; auto. Qed.

End FlagFacts2.

(* ================================================================== *)
(** ** Further properties of the [Caffe] statics *)

Module CaffeFacts2.
Import CaffeState CaffeDevices.

(** After [set_gpus(gpus)], [device_in_use_per_host_count()] is the length of
    [gpus], or 1 for an empty list, as long as that length fits in [int]
    (at most [INT_MAX = 2^31 - 1]). *)
Theorem device_count_after_set_gpus (st : statics) (gpus : list Z) :
  (Z.of_nat (length gpus) <= 2 ^ 31 - 1)%Z ->
  device_in_use_per_host_count (set_gpus st gpus) = Z.max 1 (Z.of_nat (length gpus)).
Proof.
  intros Hn; unfold device_in_use_per_host_count, int_of_size_t.
  assert (Hg : Z.of_nat (length (gpus_ (set_gpus st gpus))) = Z.max 1 (Z.of_nat (length gpus)))
    by (destruct gpus as [|g gs]; simpl; [reflexivity|lia]).
  rewrite Hg, Z.mod_small by lia.
  destruct (Z.leb_spec (2 ^ 31) (Z.max 1 (Z.of_nat (length gpus)))); [lia|reflexivity].
Qed.

(** One step of any [report_epoch_count] calls never raises [epoch_count()]
    once the counter holds a reported value; only leaving the sentinel can
    raise it, from 0 to the value then stored. *)
Theorem epoch_count_step_never_rises (sh sh' : N) (ts ts' : list Atomic.thread) :
  Atomic.step epoch_cond sh ts sh' ts' -> (sh <= size_t_minus_one)%N ->
  (epoch_count sh' <= epoch_count sh)%N \/
  (sh = size_t_minus_one /\ epoch_count sh' = sh').
Proof.
  intros Hs Hb.
  destruct (AtomicFacts.step_mono epoch_cond sh ts sh' ts' Hs) as [->|Hlt]; [left; lia|].
  unfold epoch_cond, Atomic.atomic_minimum_cond in Hlt; apply N.ltb_lt in Hlt.
  unfold epoch_count.
  destruct (N.eqb_spec sh' size_t_minus_one) as [E'|_]; [lia|].
  destruct (N.eqb_spec sh size_t_minus_one) as [E|_]; [right; split; auto|left; lia].
Qed.

End CaffeFacts2.

(* ================================================================== *)
(** ** Further properties of [ThreadSafeMap<std::map<K, V>>] *)

Module TSMapFacts2.
Import TSMap.

Section Facts2.

Context {K V : Type}.
Variable key_lt : K -> K -> bool.
Variable value_gt : V -> V -> bool.

Hypothesis key_lt_irrefl : forall a, key_lt a a = false.
Hypothesis key_lt_trans :
  forall a b c, key_lt a b = true -> key_lt b c = true -> key_lt a c = true.
Hypothesis key_lt_total :
  forall a b, key_lt a b = false -> key_lt b a = false -> a = b.

Lemma find_set_same (k : K) (v : V) (m : map_t) :
  map_find key_lt k (map_set key_lt k v m) = Some v.
Proof.
  induction m as [|[a b] t IH]; simpl; [now rewrite key_lt_irrefl|].
  destruct (key_lt k a) eqn:E1; simpl; [now rewrite key_lt_irrefl|].
  destruct (key_lt a k) eqn:E2; simpl; [rewrite E1, E2; exact IH|].
  now rewrite E1, E2.
Qed.

Lemma find_set_other (k k' : K) (v : V) (m : map_t) :
  k' <> k -> map_find key_lt k' (map_set key_lt k v m) = map_find key_lt k' m.
Proof.
  intros Hne; induction m as [|[a b] t IH]; simpl.
  - destruct (key_lt k' k) eqn:E1; [reflexivity|].
    destruct (key_lt k k') eqn:E2; [reflexivity|].
    exfalso; apply Hne, key_lt_total; assumption.
  - destruct (key_lt k a) eqn:E1; [|destruct (key_lt a k) eqn:E2]; simpl.
    + destruct (key_lt k' k) eqn:E3; [now rewrite (key_lt_trans k' k a E3 E1)|].
      destruct (key_lt k k') eqn:E4; [reflexivity|].
      exfalso; apply Hne, key_lt_total; assumption.
    + destruct (key_lt k' a); [reflexivity|].
      destruct (key_lt a k'); [exact IH|reflexivity].
    + assert (k = a) as <- by (apply key_lt_total; assumption).
      destruct (key_lt k' k) eqn:E3; [reflexivity|].
      destruct (key_lt k k') eqn:E4; [reflexivity|].
      exfalso; apply Hne, key_lt_total; assumption.
Qed.

Lemma find_erase_same (k : K) (m : @map_t K V) :
  TSMapFacts.sorted_map key_lt m -> map_find key_lt k (map_erase key_lt k m) = None.
Proof.
  unfold TSMapFacts.sorted_map; induction m as [|[a b] t IH]; simpl; intros Hs; [reflexivity|].
  inversion Hs as [|? ? Ht Hf]; subst.
  destruct (key_lt k a) eqn:E1; [simpl; now rewrite E1|].
  destruct (key_lt a k) eqn:E2; [simpl; rewrite E1, E2; auto|].
  assert (k = a) as <- by (apply key_lt_total; assumption).
  apply TSMapFacts.find_none_below; exact Hf.
Qed.

Lemma find_erase_other (k k' : K) (m : @map_t K V) :
  TSMapFacts.sorted_map key_lt m -> k' <> k ->
  map_find key_lt k' (map_erase key_lt k m) = map_find key_lt k' m.
Proof.
  unfold TSMapFacts.sorted_map; intros Hs Hne; induction m as [|[a b] t IH]; simpl; [reflexivity|].
  inversion Hs as [|? ? Ht Hf]; subst.
  destruct (key_lt k a) eqn:E1; [reflexivity|].
  destruct (key_lt a k) eqn:E2; simpl.
  - destruct (key_lt k' a); [reflexivity|].
    destruct (key_lt a k'); [auto|reflexivity].
  - assert (k = a) as <- by (apply key_lt_total; assumption).
    destruct (key_lt k' k) eqn:E3.
    + apply TSMapFacts.find_none_below.
      eapply TSMapFacts.forall_below_trans; eauto.
    + destruct (key_lt k k') eqn:E4; [reflexivity|].
      exfalso; apply Hne, key_lt_total; assumption.
Qed.

(** Every map reached through the public operations of [ThreadSafeMap]
    iterates its keys in strictly increasing order: no key occurs twice. *)
Theorem reachable_keys_strictly_sorted (ops : list map_op) :
  StronglySorted (fun a b => key_lt a b = true) (keys (run_ops key_lt value_gt ops)).
Proof. eapply TSMapFacts.run_ops_sorted; eassumption. Qed.

(** [insert]/[emplace] never overwrite: a present key keeps its value and an
    absent one gets [v]; [operator[]] followed by an assignment always leaves
    [v] under the key. Neither changes what [find] returns for other keys. *)
Theorem insert_and_index_lookup (m : map_t) (k : K) (v : V) :
  map_find key_lt k (map_emplace key_lt k v m) =
    match map_find key_lt k m with Some o => Some o | None => Some v end /\
  map_find key_lt k (map_set key_lt k v m) = Some v /\
  (forall k', k' <> k ->
     map_find key_lt k' (map_emplace key_lt k v m) = map_find key_lt k' m /\
     map_find key_lt k' (map_set key_lt k v m) = map_find key_lt k' m).
Proof.
  split; [rewrite (TSMapFacts.find_emplace_same key_lt key_lt_irrefl); destruct (map_find key_lt k m); reflexivity|].
  split; [apply find_set_same|].
  intros k' Hne; split.
  - apply (TSMapFacts.find_emplace_other key_lt key_lt_trans key_lt_total); exact Hne.
  - apply find_set_other; exact Hne.
Qed.

(** On every reachable map, [erase(key)] removes that key and leaves what
    [find] returns for every other key unchanged. *)
Theorem erase_removes_only_key (ops : list map_op) (k : K) :
  let m := run_ops key_lt value_gt ops in
  map_find key_lt k (map_erase key_lt k m) = None /\
  (forall k', k' <> k -> map_find key_lt k' (map_erase key_lt k m) = map_find key_lt k' m).
Proof.
  cbv zeta.
  assert (Hs : TSMapFacts.sorted_map key_lt (run_ops key_lt value_gt ops))
    by (eapply TSMapFacts.run_ops_sorted; eassumption).
  split; [apply find_erase_same; exact Hs|].
  intros k' Hne; apply find_erase_other; assumption.
Qed.

End Facts2.

Lemma length_emplace {K V : Type} (key_lt : K -> K -> bool) (k : K) (v : V) (m : map_t) :
  length (map_emplace key_lt k v m) =
  length m + match map_find key_lt k m with Some _ => 0 | None => 1 end.
Proof.
  induction m as [|[a b] t IH]; simpl; [reflexivity|].
  destruct (key_lt k a); simpl; [lia|].
  destruct (key_lt a k); simpl; [rewrite IH; reflexivity|lia].
Qed.

Lemma length_erase {K V : Type} (key_lt : K -> K -> bool) (k : K) (m : @map_t K V) :
  length (map_erase key_lt k m) + match map_find key_lt k m with Some _ => 1 | None => 0 end =
  length m.
Proof.
  induction m as [|[a b] t IH]; simpl; [reflexivity|].
  destruct (key_lt k a); simpl; [lia|].
  destruct (key_lt a k); simpl; [rewrite IH; reflexivity|lia].
Qed.

Lemma length_assign {K V : Type} (key_lt : K -> K -> bool) (k : K) (v : V) (m : map_t) :
  length (map_assign key_lt k v m) = length m.
Proof.
  induction m as [|[a b] t IH]; simpl; [reflexivity|].
  destruct (key_lt k a); simpl; [reflexivity|].
  destruct (key_lt a k); simpl; [rewrite IH|]; reflexivity.
Qed.

(** [size()] accounting: [insert]/[emplace] and [insert_max] grow the map by
    one exactly when the key was absent; [erase(key)] shrinks it by one
    exactly when the key was present; a successful [remove_top] shrinks it
    by one. *)
Theorem size_accounting {K V : Type} (key_lt : K -> K -> bool) (value_gt : V -> V -> bool)
    (m : map_t) (k : K) (v : V) :
  let grow := match map_find key_lt k m with Some _ => 0 | None => 1 end in
  length (map_emplace key_lt k v m) = length m + grow /\
  length (insert_max key_lt value_gt k v m) = length m + grow /\
  length (map_erase key_lt k m) + (1 - grow) = length m /\
  (forall key value k' v' m', remove_top key value m = (true, k', v', m') ->
     S (length m') = length m).
Proof.
  cbv zeta. split; [apply length_emplace|split; [|split]].
  - unfold insert_max; destruct (map_find key_lt k m) as [old|] eqn:F.
    + destruct (value_gt v old); [rewrite length_assign|]; lia.
    + rewrite length_emplace, F; reflexivity.
  - pose proof (length_erase key_lt k m) as H.
    destruct (map_find key_lt k m); simpl in *; lia.
  - intros key value k' v' m' Hr; destruct m as [|[a b] t]; [discriminate|].
    injection Hr as _ _ <-; reflexivity.
Qed.

End TSMapFacts2.

(* ================================================================== *)
(** ** Properties of [rss()] *)

Module RssFacts.
Import Ascii Rss.
Open Scope char_scope.

Definition no_digit (l : line_t) : Prop := Forall (fun c => is_digit c = false) l.
Definition all_digits (l : line_t) : Prop := Forall (fun c => is_digit c = true) l.

Lemma first_digit_app (j : nat) (l r : line_t) :
  no_digit l -> first_digit j (l ++ r) = first_digit (j + length l) r.
Proof.
  revert j; induction l as [|c t IH]; intros j Hl; simpl; [now rewrite Nat.add_0_r|].
  inversion Hl as [|? ? Hc Ht]; subst; rewrite Hc, IH by exact Ht; f_equal; lia.
Qed.

Lemma replace_nth_app (l r : line_t) (n : nat) (c : ascii) :
  length l <= n -> replace_nth (l ++ r) n c = l ++ replace_nth r (n - length l) c.
Proof.
  revert n; induction l as [|x t IH]; intros n Hn; simpl; [now rewrite Nat.sub_0_r|].
  destruct n as [|n]; simpl in Hn; [lia|]. simpl; rewrite IH by lia; reflexivity.
Qed.

Lemma skipn_app_exact (l r : line_t) : skipn (length l) (l ++ r) = r.
Proof. induction l; simpl; auto. Qed.

Lemma read_digits_app (acc : Z) (ds r : line_t) :
  all_digits ds ->
  read_digits acc (ds ++ r) = read_digits (fold_left (fun a c => (10 * a + digit_value c)%Z) ds acc) r.
Proof.
  revert acc; induction ds as [|d t IH]; intros acc Hd; simpl; [reflexivity|].
  inversion Hd as [|? ? Hc Ht]; subst; rewrite Hc; apply IH; exact Ht.
Qed.

Lemma digit_not_space (c : ascii) : is_digit c = true -> is_space c = false.
Proof.
  unfold is_digit, is_space; cbv zeta; intros H.
  apply andb_true_iff in H as [H1 H2]; apply Nat.leb_le in H1, H2.
  destruct (Nat.eqb_spec (nat_of_ascii c) 32); [lia|simpl].
  destruct (Nat.leb_spec 9 (nat_of_ascii c)), (Nat.leb_spec (nat_of_ascii c) 13);
    simpl; try reflexivity; lia.
Qed.

Lemma atol_digits (ds r : line_t) (c : ascii) :
  ds <> [] -> all_digits ds -> is_digit c = false -> atol (ds ++ c :: r) = decimal ds.
Proof.
  intros Hne Hd Hc; destruct ds as [|d t]; [congruence|].
  inversion Hd as [|? ? Hd1 Ht]; subst.
  unfold atol; simpl; rewrite (digit_not_space d Hd1).
  destruct (ascii_dec d "-") as [->|_]; [discriminate|].
  destruct (ascii_dec d "+") as [->|_]; [discriminate|].
  rewrite Hd1, read_digits_app by exact Ht. simpl; rewrite Hc; reflexivity.
Qed.

Lemma atol_digits_nul (ds r : line_t) :
  all_digits ds -> atol (ds ++ NUL :: r) = decimal ds.
Proof.
  intros Hd; destruct ds as [|d t]; [reflexivity|].
  apply atol_digits; [discriminate|exact Hd|reflexivity].
Qed.

Lemma decimal_acc_nonneg (ds : line_t) (a0 : Z) :
  all_digits ds -> (0 <= a0)%Z ->
  (0 <= fold_left (fun acc c => (10 * acc + digit_value c)%Z) ds a0)%Z.
Proof.
  revert a0; induction ds as [|d t IH]; intros a0 Hd Ha; cbn [fold_left]; [exact Ha|].
  inversion Hd as [|? ? Hd1 Ht]; subst.
  apply IH; [exact Ht|].
  unfold is_digit in Hd1; cbv zeta in Hd1; apply andb_true_iff in Hd1 as [H1 _].
  apply Nat.leb_le in H1; unfold digit_value; lia.
Qed.

Lemma decimal_nonneg (ds : line_t) : all_digits ds -> (0 <= decimal ds)%Z.
Proof. intros Hd; apply decimal_acc_nonneg; [exact Hd|lia]. Qed.

Lemma prefix_no_digit : no_digit VmRSS_prefix.
Proof. repeat constructor. Qed.

Lemma starts_with_prefix (x : line_t) : starts_with_VmRSS (VmRSS_prefix ++ x) = true.
Proof.
  unfold starts_with_VmRSS; simpl.
  destruct (list_eq_dec ascii_dec VmRSS_prefix VmRSS_prefix); [reflexivity|contradiction].
Qed.

Lemma rss_skip (pre post : list line_t) :
  Forall (fun l => starts_with_VmRSS l = false) pre -> rss (pre ++ post) = rss post.
Proof.
  induction pre as [|l t IH]; intros H; simpl; [reflexivity|].
  inversion H as [|? ? Hl Ht]; subst; rewrite Hl; apply IH; exact Ht.
Qed.

Lemma first_digit_at_digits (j : nat) (ds r : line_t) :
  ds <> [] -> all_digits ds -> first_digit j (ds ++ r) = Some j.
Proof.
  intros Hne Hd; destruct ds as [|d t]; [congruence|].
  inversion Hd as [|? ? Hd1 _]; subst; simpl; rewrite Hd1; reflexivity.
Qed.

(** Without a line starting with [VmRSS:], [rss()] returns 0. *)
Theorem rss_zero_without_VmRSS (chunks : list line_t) :
  Forall (fun l => starts_with_VmRSS l = false) chunks -> rss chunks = Some 0%Z.
Proof.
  intros H; rewrite <- (app_nil_r chunks), rss_skip by exact H; reflexivity.
Qed.

(** The first line starting with [VmRSS:] decides: when it reads
    [VmRSS:], then non-digits, then the digits [ds], then [" kB\n"],
    [rss()] returns the number [ds] spells (below [2^63], so [atol] does
    not overflow), whatever lines follow. *)
Theorem rss_reads_first_VmRSS_line (pre post : list line_t) (ws ds : line_t) :
  Forall (fun l => starts_with_VmRSS l = false) pre ->
  no_digit ws -> ds <> [] -> all_digits ds -> (decimal ds < 2 ^ 63)%Z ->
  rss (pre ++ (VmRSS_prefix ++ ws ++ ds ++ [" "; "k"; "B"; "010"]) :: post) =
  Some (decimal ds).
Proof.
  intros Hpre Hws Hne Hds Hlt.
  rewrite rss_skip by exact Hpre; cbn [rss]; rewrite starts_with_prefix.
  unfold rss_line.
  set (L1 := VmRSS_prefix ++ ws).
  assert (HL1 : no_digit L1) by (apply Forall_app; split; [exact prefix_no_digit|exact Hws]).
  replace (VmRSS_prefix ++ ws ++ ds ++ [" "; "k"; "B"; "010"])
    with (L1 ++ ds ++ [" "; "k"; "B"; "010"]) by (unfold L1; rewrite <- !app_assoc; reflexivity).
  clearbody L1.
  rewrite first_digit_app by exact HL1; simpl (0 + length L1).
  rewrite first_digit_at_digits by assumption.
  rewrite !length_app; simpl length.
  replace (length L1 + (length ds + 4) - 3) with (length L1 + (length ds + 1)) by lia.
  rewrite replace_nth_app by lia. replace (length L1 + (length ds + 1) - length L1) with (length ds + 1) by lia.
  rewrite replace_nth_app by lia. replace (length ds + 1 - length ds) with 1 by lia. simpl replace_nth.
  rewrite skipn_app_exact, atol_digits by (assumption || reflexivity).
  pose proof (decimal_nonneg ds Hds).
  rewrite Z.mod_small by lia; reflexivity.
Qed.

(** [line[i-3] = '\0'] cuts the line three characters before its end,
    which only lands on the space of [" kB\n"] when the unit is there: on a
    [VmRSS:] line whose digits end right before the newline, the last two
    digits are cut off. *)
Theorem rss_drops_two_digits_without_unit (pre post : list line_t) (ws A : line_t) (d1 d2 : ascii) :
  Forall (fun l => starts_with_VmRSS l = false) pre ->
  no_digit ws -> all_digits A -> is_digit d1 = true -> is_digit d2 = true ->
  (decimal A < 2 ^ 63)%Z ->
  rss (pre ++ (VmRSS_prefix ++ ws ++ A ++ [d1; d2; "010"]) :: post) = Some (decimal A).
Proof.
  intros Hpre Hws HA H1 H2 Hlt.
  rewrite rss_skip by exact Hpre; cbn [rss]; rewrite starts_with_prefix.
  unfold rss_line.
  set (L1 := VmRSS_prefix ++ ws).
  assert (HL1 : no_digit L1) by (apply Forall_app; split; [exact prefix_no_digit|exact Hws]).
  replace (VmRSS_prefix ++ ws ++ A ++ [d1; d2; "010"])
    with (L1 ++ (A ++ [d1]) ++ [d2; "010"])
    by (unfold L1; rewrite <- !app_assoc; reflexivity).
  assert (HA1 : all_digits (A ++ [d1])) by (apply Forall_app; split; [exact HA|constructor; auto]).
  clearbody L1.
  rewrite first_digit_app by exact HL1; simpl (0 + length L1).
  rewrite first_digit_at_digits by (try exact HA1; destruct A; discriminate).
  rewrite <- app_assoc; simpl app.
  rewrite !length_app; simpl length.
  replace (length L1 + (length A + 3) - 3) with (length L1 + length A) by lia.
  rewrite replace_nth_app by lia. replace (length L1 + length A - length L1) with (length A) by lia.
  rewrite replace_nth_app by lia. rewrite Nat.sub_diag. simpl replace_nth.
  rewrite skipn_app_exact, atol_digits_nul by exact HA.
  pose proof (decimal_nonneg A HA).
  rewrite Z.mod_small by lia; reflexivity.
Qed.

End RssFacts.

(* ================================================================== *)
(** ** Concrete instances of the properties above *)

Module Witnesses2.
Import TSMap.

(** [align_down<3>(13)] on a 64-bit [T] is 8, the largest multiple of 8
    not above 13. *)
Lemma align_down_largest_multiple_witness :
  Align.align_down 64 3 13 = 8%Z /\
  ((0 <= Align.align_down 64 3 13 <= 13) /\ Align.align_down 64 3 13 mod 2 ^ 3 = 0 /\
   13 < Align.align_down 64 3 13 + 2 ^ 3)%Z /\
  Align.align_down 8 10 200 = 0%Z /\
  (200 < Align.align_down 8 10 200 + 2 ^ 10)%Z.
Proof.
  split; [reflexivity|split; [apply AlignFacts.align_down_largest_multiple; lia|]].
  split; [reflexivity|].
  apply (AlignFacts.align_down_largest_multiple 8 10 200); lia.
Defined.

(** [align_up<3>(13)] on a 64-bit [T] is 16. *)
Lemma align_up_smallest_multiple_witness :
  Align.align_up 64 3 13 = 16%Z /\
  (13 <= Align.align_up 64 3 13 /\ Align.align_up 64 3 13 mod 2 ^ 3 = 0 /\
   Align.align_up 64 3 13 < 13 + 2 ^ 3)%Z.
Proof.
  split; [reflexivity|].
  apply AlignFacts.align_up_smallest_multiple; lia.
Defined.

(** [align_up<3>] of the 8-bit value 250 wraps to 0, and so does
    [align_up<10>] of the 8-bit value 5. *)
Lemma align_up_wraps_to_zero_witness :
  Align.align_up 8 3 250 = 0%Z /\ Align.align_up 8 10 5 = 0%Z.
Proof.
  split; apply AlignFacts.align_up_wraps_to_zero; try lia; discriminate.
Defined.

(** [even(13)] is 14, [even(2^64-1)] is 0. *)
Lemma even_rounds_up_to_even_witness :
  Align.even 64 13 = 14%Z /\ Align.is_even (Align.even 64 13) = true /\
  Align.even 64 (2 ^ 64 - 1) = 0%Z.
Proof.
  destruct (AlignFacts.even_rounds_up_to_even 64 13) as [He [Hr _]]; [lia|lia|].
  destruct (AlignFacts.even_rounds_up_to_even 64 (2 ^ 64 - 1)) as [_ [_ Hw]]; [lia|lia|].
  split; [reflexivity|split; [exact He|apply Hw; reflexivity]].
Defined.

(** [Flag f; f.disarm(); f.wait_reset(); f.reset(); f.disarm();]: a
    following [f.wait()] still blocks. *)
Lemma wait_blocked_after_disarm_without_set_witness :
  Flag.wait (Flag.run_flag_ops (Flag.disarm (Flag.Flag_new false))
               [Flag.FWaitReset; Flag.FReset; Flag.FDisarm]) = None.
Proof.
  exact (proj1 (FlagFacts.wait_blocked_after_disarm_without_set (Flag.Flag_new false)
                  [Flag.FWaitReset; Flag.FReset; Flag.FDisarm] eq_refl eq_refl)).
Defined.

(** [set_gpus({2, 5})] then [set_gpus({})] with root device 0: 2, then 1. *)
Lemma device_count_after_set_gpus_witness :
  let st := CaffeState.mk_statics 0 [] CaffeState.CPU 0 in
  CaffeDevices.device_in_use_per_host_count (CaffeState.set_gpus st [2; 5]%Z) = 2%Z /\
  CaffeDevices.device_in_use_per_host_count
    (CaffeState.set_gpus (CaffeState.set_gpus st [2; 5]%Z) []) = 1%Z.
Proof.
  split.
  - rewrite CaffeFacts2.device_count_after_set_gpus by (simpl; lia); reflexivity.
  - rewrite CaffeFacts2.device_count_after_set_gpus by (simpl; lia); reflexivity.
Defined.

(** From the sentinel [size_t(-1)], a report of 5 lands: the count jumps
    from 0 to 5, the one case where it rises. *)
Lemma epoch_count_step_never_rises_witness :
  CaffeState.epoch_count CaffeState.size_t_minus_one = 0%N /\
  ((CaffeState.epoch_count 5 <= CaffeState.epoch_count CaffeState.size_t_minus_one)%N \/
   (CaffeState.size_t_minus_one = CaffeState.size_t_minus_one /\ CaffeState.epoch_count 5 = 5%N)).
Proof.
  split; [reflexivity|].
  apply (CaffeFacts2.epoch_count_step_never_rises CaffeState.size_t_minus_one 5
           [Atomic.TLoop CaffeState.size_t_minus_one 5%N] [Atomic.TDone 5%N]).
  - exact (Atomic.step_at _ [] [] _ _ _ _
             (Atomic.ts_cas_ok CaffeState.epoch_cond CaffeState.size_t_minus_one 5%N eq_refl)).
  - apply N.le_refl.
Defined.

(** The keys reached by [sample_ops] come out ascending. *)
Lemma reachable_keys_strictly_sorted_witness :
  keys (run_ops Nat.ltb Witnesses.nat_gtb Witnesses.sample_ops) = [1; 2; 3] /\
  Sorted.StronglySorted (fun a b => Nat.ltb a b = true)
    (keys (run_ops Nat.ltb Witnesses.nat_gtb Witnesses.sample_ops)).
Proof.
  split; [reflexivity|].
  exact (TSMapFacts2.reachable_keys_strictly_sorted Nat.ltb Witnesses.nat_gtb
           Witnesses.nat_ltb_trans Witnesses.sample_ops).
Defined.

(** [insert(2, 99)] keeps the stored 20, [operator[](2) = 99] overwrites it. *)
Lemma insert_and_index_lookup_witness :
  let m := run_ops Nat.ltb Witnesses.nat_gtb Witnesses.sample_ops in
  map_find Nat.ltb 2 (map_emplace Nat.ltb 2 99 m) = Some 20 /\
  map_find Nat.ltb 2 (map_set Nat.ltb 2 99 m) = Some 99 /\
  map_find Nat.ltb 3 (map_set Nat.ltb 2 99 m) = map_find Nat.ltb 3 m.
Proof.
  destruct (TSMapFacts2.insert_and_index_lookup Nat.ltb Witnesses.nat_ltb_irrefl
              Witnesses.nat_ltb_trans Witnesses.nat_ltb_total
              (run_ops Nat.ltb Witnesses.nat_gtb Witnesses.sample_ops) 2 99) as [H1 [H2 H3]].
  split; [rewrite H1; reflexivity|split; [exact H2|]].
  apply (proj2 (H3 3 ltac:(discriminate))).
Defined.

(** [erase(2)] removes key 2 and keeps key 1. *)
Lemma erase_removes_only_key_witness :
  let m := run_ops Nat.ltb Witnesses.nat_gtb Witnesses.sample_ops in
  map_find Nat.ltb 2 (map_erase Nat.ltb 2 m) = None /\
  map_find Nat.ltb 1 (map_erase Nat.ltb 2 m) = Some 15.
Proof.
  destruct (TSMapFacts2.erase_removes_only_key Nat.ltb Witnesses.nat_gtb
              Witnesses.nat_ltb_trans Witnesses.nat_ltb_total Witnesses.sample_ops 2) as [H1 H2].
  split; [exact H1|].
  rewrite (H2 1 ltac:(discriminate)); reflexivity.
Defined.

Import Ascii.
Open Scope char_scope.

Definition name_line : Rss.line_t := ["N"; "a"; "m"; "e"; ":"; "009"; "x"; "010"].

(** A [/proc/self/status] without [VmRSS:] gives 0. *)
Lemma rss_zero_without_VmRSS_witness : Rss.rss [name_line; ["U"; "i"; "d"; "010"]] = Some 0%Z.
Proof.
  apply RssFacts.rss_zero_without_VmRSS; repeat constructor.
Defined.

(** [VmRSS:\t  51200 kB\n] after a [Name:] line reads 51200. *)
Lemma rss_reads_first_VmRSS_line_witness :
  Rss.rss [name_line;
           ["V"; "m"; "R"; "S"; "S"; ":"; "009"; " "; " "; "5"; "1"; "2"; "0"; "0";
            " "; "k"; "B"; "010"];
           ["V"; "m"; "R"; "S"; "S"; ":"; " "; "7"; " "; "k"; "B"; "010"]] = Some 51200%Z.
Proof.
  apply (RssFacts.rss_reads_first_VmRSS_line [name_line]
           [["V"; "m"; "R"; "S"; "S"; ":"; " "; "7"; " "; "k"; "B"; "010"]]
           ["009"; " "; " "] ["5"; "1"; "2"; "0"; "0"]);
    [repeat constructor|repeat constructor|discriminate|repeat constructor|reflexivity].
Defined.

(** [VmRSS: 512\n], without a unit, reads 5. *)
Lemma rss_drops_two_digits_without_unit_witness :
  Rss.rss [["V"; "m"; "R"; "S"; "S"; ":"; " "; "5"; "1"; "2"; "010"]] = Some 5%Z.
Proof.
  apply (RssFacts.rss_drops_two_digits_without_unit [] [] [" "] ["5"] "1" "2");
    [repeat constructor|repeat constructor|repeat constructor|reflexivity|reflexivity|reflexivity].
Defined.

End Witnesses2.
